(** * riptide-server: queue admission scheduler and torrent lifecycle worker

    A shallow embedding of
      - package [database] ([src/database/database.go]): the BoltDB
        wrapper, as far as the queue uses it;
      - package [queue] (in [src/torrent_info.go], lines 83-183): [Add],
        [ForceNext], [Next], [Done], [Run], [Remove];
      - [TorrentProgress] and its [Update] (the last part of
        [src/vendor/github.com/anacrolix/go-libutp/socket.go]);
      - [startTorrent], the per-torrent driver loop, and [stopTorrent]
        ([src/manage_torrent.go]); [handleMsgTorrentStop]
        ([src/unnamed/part_000]);
    and the properties of the specification that concern them.

    The goroutines of the program meet on unbuffered channels.  The
    scheduler is modelled twice: as a state machine whose steps are whole
    operations (see [Queue.op]), and as one whose steps are the single
    accesses of the goroutines to the shared state (see
    [QueueFine.micro]); every whole operation is a sequence of such
    steps.  The worker is modelled as a function from the state before a
    turn of its loop to the state after it. *)

From stdpp Require Import gmap strings list sorting.
From Stdlib Require Import Ascii ZArith NArith QArith Lia.

Set Warnings "-clear-no-such-hyp".

Local Open Scope string_scope.
Local Open Scope list_scope.
Local Open Scope Z_scope.

(* ===================================================================== *)
(** * database: byte keys, auto-increment ids, the ordered bucket        *)
(* ===================================================================== *)

Module Database.

(** Keys are byte slices; a byte is an 8-bit number. *)
Abbreviation bytes := (list N).

(** [uint64] arithmetic wraps at 2^64. *)
Definition uint64_wrap (v : N) : N := (v mod 2 ^ 64)%N.

(** [itob]: [binary.BigEndian.PutUint64(b, v)] on a fresh 8-byte slice;
    [b[i] = byte(v >> (56 - 8*i))]. *)
Definition itob (v : N) : bytes :=
  [ N.land (N.shiftr v 56) 255; N.land (N.shiftr v 48) 255;
    N.land (N.shiftr v 40) 255; N.land (N.shiftr v 32) 255;
    N.land (N.shiftr v 24) 255; N.land (N.shiftr v 16) 255;
    N.land (N.shiftr v 8) 255;  N.land v 255 ]%N.

(** [bytes.Compare]: BoltDB keeps the keys of a bucket in this order. *)
Fixpoint bytes_compare (a b : bytes) : comparison :=
  match a, b with
  | [], [] => Eq
  | [], _ :: _ => Lt
  | _ :: _, [] => Gt
  | x :: a', y :: b' =>
      match N.compare x y with
      | Eq => bytes_compare a' b'
      | c => c
      end
  end.

Definition bytes_lt (a b : bytes) : Prop := bytes_compare a b = Lt.

(** A bucket: its persistent sequence counter and its key/value pairs in
    key order.  The values of the [Queued] bucket are torrent hashes. *)
Record Bucket := mkBucket {
  sequence : N;
  entries : list (bytes * string)
}.

Definition keys (b : Bucket) : list bytes := fst <$> entries b.
Definition values (b : Bucket) : list string := snd <$> entries b.

(** [bolt.Bucket.NextSequence]: increments the counter and returns it. *)
Definition NextSequence (b : Bucket) : N * Bucket :=
  let id := uint64_wrap (sequence b + 1) in
  (id, mkBucket id (entries b)).

(** [bolt.Bucket.Put]: insert at the key's place, replacing an equal key. *)
Fixpoint insert_sorted (k : bytes) (v : string) (l : list (bytes * string))
  : list (bytes * string) :=
  match l with
  | [] => [(k, v)]
  | (k', v') :: l' =>
      match bytes_compare k k' with
      | Lt => (k, v) :: (k', v') :: l'
      | Eq => (k, v) :: l'
      | Gt => (k', v') :: insert_sorted k v l'
      end
  end.

Definition bucket_Put (k : bytes) (v : string) (b : Bucket) : Bucket :=
  mkBucket (sequence b) (insert_sorted k v (entries b)).

(** [bolt.Bucket.Delete]. *)
Definition bucket_Delete (k : bytes) (b : Bucket) : Bucket :=
  mkBucket (sequence b)
    (filter (λ e, bytes_compare (fst e) k ≠ Eq) (entries b)).

(** [b.Cursor().First()]. *)
Definition cursor_First (b : Bucket) : option (bytes * string) :=
  head (entries b).

(** [Put(bucket, AutoIncrement, val)] for a string value: the key is
    [itob] of the bucket's next sequence number. *)
Definition Put_AutoIncrement (val : string) (b : Bucket) : Bucket :=
  let '(id, b') := NextSequence b in
  bucket_Put (itob id) val b'.

(** [Get(bucket, GetFirstKey)]: [None] stands for [(nil, ErrNoSuchKey)]. *)
Definition Get_FirstKey (b : Bucket) : option string :=
  snd <$> cursor_First b.

(** [Delete(bucket, GetFirstKey)]: on an empty bucket [assertGetByKey]
    fails with [ErrNoSuchKey] and nothing is deleted. *)
Definition Delete_FirstKey (b : Bucket) : Bucket :=
  match cursor_First b with
  | Some (k, _) => bucket_Delete k b
  | None => b
  end.

(** Big-endian digits of [v] on [n] bytes, least significant byte last;
    [itob] is the case [n = 8]. *)
Fixpoint be (n : nat) (v : N) : bytes :=
  match n with
  | O => []
  | S n' => be n' (v / 256)%N ++ [(v mod 256)%N]
  end.

Definition entry_lt (e1 e2 : bytes * string) : Prop := bytes_lt (fst e1) (fst e2).

(** The shape of a bucket that was filled through [Put_AutoIncrement]
    only: the keys are [itob] of sequence numbers already handed out, in
    strictly increasing order, and the counter has not wrapped. *)
Definition backlog_ok (b : Bucket) : Prop :=
  (sequence b < 2 ^ 64)%N ∧
  StronglySorted entry_lt (entries b) ∧
  Forall (λ e, ∃ n : N, fst e = itob n ∧ (n ≤ sequence b)%N) (entries b).

End Database.

(* ===================================================================== *)
(** * queue: the admission scheduler                                     *)
(* ===================================================================== *)

Module Queue.
Import Database.

(** Go's [int] on a 64-bit target: arithmetic wraps into [-2^63, 2^63). *)
Definition int_wrap (z : Z) : Z := (z + 2 ^ 63) mod 2 ^ 64 - 2 ^ 63.

(** Which branch of [Run] sent a hash on [cNext]. *)
Inductive origin := Forced | Polled.

#[global] Instance origin_eq_dec : EqDecision origin.
Proof. solve_decision. Defined.

(** The state shared by the package's functions:
    - [queued]: the [Queued] bucket of the database,
    - [numActive]: the local counter of [Run],
    - [activeHashes]: the [sync.Map] used as a set,
    - [delivered]: the hashes sent on [cNext] so far, oldest first; this
      is the sequence of results of [Next]. *)
Record State := mkState {
  queued : Bucket;
  numActive : Z;
  activeHashes : gset string;
  delivered : list (origin * string)
}.

(** Process start: [Run] sets [numActive := 0], [activeHashes] is empty;
    the database file may hold a backlog from an earlier session. *)
Definition start (b : Bucket) : State := mkState b 0 ∅ [].

Definition init : State := start (mkBucket 0%N []).

(** [Add]: [db.Put(db.BucketQueued, db.AutoIncrement, hash)]. *)
Definition Add (hash : string) (s : State) : State :=
  mkState (Put_AutoIncrement hash (queued s))
          (numActive s) (activeHashes s) (delivered s).

(** The transaction of [Remove]: [ForEach] over the bucket, deleting each
    key whose value is [hash]. *)
Definition remove_matching (hash : string) (b : Bucket) : Bucket :=
  mkBucket (sequence b) (filter (λ e, snd e ≠ hash) (entries b)).

Definition Remove (hash : string) (s : State) : State :=
  mkState (remove_matching hash (queued s))
          (numActive s) (activeHashes s) (delivered s).

(** [cNext <- hash] in [Run], received by [Next], which stores the hash
    in [activeHashes] and returns it to the consumer. *)
Definition Next (o : origin) (hash : string) (s : State) : State :=
  mkState (queued s) (numActive s)
          ({[hash]} ∪ activeHashes s) (delivered s ++ [(o, hash)]).

(** The cases of the [select] in [Run]. [ForceNext hash] only sends
    [hash] on [cForce]; [CaseForce hash] is [Run] receiving it. *)
Inductive select_case :=
| CaseDone
| CaseForce (hash : string)
| CaseTick.

Definition Run_select (c : select_case) (s : State) : State :=
  match c with
  | CaseDone =>
      let n := int_wrap (numActive s - 1) in
      mkState (queued s) (if n <? 0 then 0 else n)
              (activeHashes s) (delivered s)
  | CaseForce hash =>
      let s1 := mkState (queued s) (int_wrap (numActive s + 1))
                        (activeHashes s) (delivered s) in
      Next Forced hash (Remove hash s1)
  | CaseTick => s
  end.

(** The part of the loop body after the [select]. *)
Definition Run_poll (maxActive : Z) (s : State) : State :=
  if numActive s <? maxActive then
    match Get_FirstKey (queued s) with
    | Some buf =>
        let s1 := mkState (queued s) (int_wrap (numActive s + 1))
                          (activeHashes s) (delivered s) in
        let s2 := Next Polled buf s1 in
        mkState (Delete_FirstKey (queued s2)) (numActive s2)
                (activeHashes s2) (delivered s2)
    | None => s
    end
  else s.

(** One turn of the [for] loop of [Run]. *)
Definition Run_iteration (maxActive : Z) (c : select_case) (s : State) : State :=
  Run_poll maxActive (Run_select c s).

(** [activeHashes.Delete(hash)]. *)
Definition activeHashes_Delete (hash : string) (s : State) : State :=
  mkState (queued s) (numActive s) (activeHashes s ∖ {[hash]}) (delivered s).

(** [Done]: when [hash] is in [activeHashes], send on [cDone] (received by
    the [select] of [Run]) and delete [hash] from the set. *)
Definition Done (hash : string) (s : State) : State :=
  if decide (hash ∈ activeHashes s) then
    activeHashes_Delete hash (Run_select CaseDone s)
  else s.

(** ** Sequences of scheduler operations

    An operation is one call of the package's API together with the turn
    of [Run] that serves it; the operations are taken one at a time, in
    the order in which [Run] and the database serve them:
    - [OpAdd], [OpRemove]: one database transaction;
    - [OpForceNext hash]: the turn of [Run] that receives [hash] on [cForce];
    - [OpTick]: a turn of [Run] started by the ticker;
    - [OpDone hash delete_first]: a call [Done hash] and, when it sends
      its signal, the turn of [Run] that receives it.  [Done] deletes
      [hash] from [activeHashes] while [Run] goes on to the poll of that
      turn; [delete_first] says which of the two comes first.
    A hash sent on [cNext] is stored in [activeHashes] by [Next] within
    the same operation. *)
Inductive op :=
| OpAdd (hash : string)
| OpRemove (hash : string)
| OpForceNext (hash : string)
| OpDone (hash : string) (delete_first : bool)
| OpTick.

Definition step (maxActive : Z) (o : op) (s : State) : State :=
  match o with
  | OpAdd hash => Add hash s
  | OpRemove hash => Remove hash s
  | OpForceNext hash => Run_iteration maxActive (CaseForce hash) s
  | OpDone hash delete_first =>
      if decide (hash ∈ activeHashes s) then
        if delete_first
        then Run_poll maxActive (Done hash s)
        else activeHashes_Delete hash (Run_iteration maxActive CaseDone s)
      else Done hash s
  | OpTick => Run_iteration maxActive CaseTick s
  end.

Definition run (maxActive : Z) (ops : list op) (s : State) : State :=
  foldl (λ s o, step maxActive o s) s ops.

Definition is_force (o : op) : bool :=
  match o with OpForceNext _ => true | _ => false end.


Definition is_add (o : op) : bool :=
  match o with OpAdd _ => true | _ => false end.

Definition is_remove (o : op) : bool :=
  match o with OpRemove _ => true | _ => false end.

(** The hashes of the [Add] calls of a sequence, in call order. *)
Definition added (ops : list op) : list string :=
  omap (λ o, match o with OpAdd h => Some h | _ => None end) ops.

Definition no_force (ops : list op) : bool := forallb (λ o, negb (is_force o)) ops.
Definition no_remove (ops : list op) : bool := forallb (λ o, negb (is_remove o)) ops.
Definition adds (ops : list op) : N := N.of_nat (length (added ops)).

(** The results of [Next], and those that came from the backlog. *)
Definition yielded (s : State) : list string := snd <$> delivered s.
Definition polled (s : State) : list string :=
  snd <$> filter (λ d, fst d = Polled) (delivered s).

(** How often [x] occurs in [l]. *)
Definition occurrences {A} `{EqDecision A} (x : A) (l : list A) : nat :=
  length (filter (λ y, y = x) l).

(** Every [Add] of the sequence is for a hash that has no backlog entry
    at the moment of the call. *)
Fixpoint fresh_adds (maxActive : Z) (ops : list op) (s : State) : bool :=
  match ops with
  | [] => true
  | o :: ops' =>
      match o with
      | OpAdd h => bool_decide (h ∉ values (queued s))
      | _ => true
      end && fresh_adds maxActive ops' (step maxActive o s)
  end.

(** [counter_ok bound s]: every member of [activeHashes] is counted in
    [numActive], and [numActive] is at most [bound]. *)
Definition counter_ok (bound : Z) (s : State) : Prop :=
  Z.of_nat (size (activeHashes s)) ≤ numActive s ∧ numActive s ≤ bound.

End Queue.

(* ===================================================================== *)
(** * main: torrent records, progress, and the driver loop               *)
(* ===================================================================== *)

Module Worker.

(** [type Status string] with its six constants. *)
Inductive Status :=
| StatusActive | StatusQueued | StatusStopped
| StatusPending | StatusDone | StatusSeeding.

#[global] Instance Status_eq_dec : EqDecision Status.
Proof. solve_decision. Defined.

Record TorrentInfo := mkInfo {
  Hash : string;
  Name : string;
  TimeAdded : Z;
  TotalBytes : Z;
  status : Status;
  Magnet : string;
  LabelID : string
}.

Definition set_status (st : Status) (t : TorrentInfo) : TorrentInfo :=
  mkInfo (Hash t) (Name t) (TimeAdded t) (TotalBytes t) st (Magnet t) (LabelID t).

Record Label := mkLabel {
  ID : string;
  LabelName : string;
  Color : string;
  MoveTo : string
}.

(** [Ratio] is a [float64] in the source, computed as the quotient of two
    converted [int64] counters; it is modelled by the exact quotient.
    Conversion and division round monotonically and keep the sign, so the
    comparisons of [Ratio] with the targets 0 and -1 are those of the
    exact quotient. *)
Record TorrentProgress := mkProgress {
  pHash : string;
  BytesCompleted : Z;
  BytesUploaded : Z;
  BpsUp : Z;
  BpsDown : Z;
  ActivePeers : Z;
  TotalPeers : Z;
  Ratio : Q
}.

(** [int64] arithmetic. *)
Definition int64_wrap (z : Z) : Z := (z + 2 ^ 63) mod 2 ^ 64 - 2 ^ 63.

(** What the torrent client reports for the torrent at a tick:
    [held] is the [ok] of [client.Torrent], [BytesWritten] is
    [t.Stats().ConnStats.BytesWritten], [Completed] is [t.BytesCompleted()]. *)
Record Engine := mkEngine {
  held : bool;
  BytesWritten : Z;
  Completed : Z;
  StatsActivePeers : Z;
  StatsTotalPeers : Z
}.

(** Outcomes of the file-system calls made when done data is moved. *)
Record FileSystem := mkFS {
  mkdir_ok : bool;
  target_exists : bool;
  rename_ok : bool;
  symlink_ok : bool
}.

(** What the worker does to the outside, in order. *)
Inductive effect :=
| DownloadAll (hash : string)
| Drop (hash : string)
| BroadcastProgress (p : TorrentProgress)
| BroadcastInfo (t : TorrentInfo)
| MkdirAll (dir : string)
| Rename (oldPath newPath : string)
| Symlink (newPath oldPath : string)
| Log (msg : string).

(** The state a worker acts on: the [Torrents] and [Labels] buckets
    (decoded), the queue package, [managedTorrents] (the hashes that have
    a close channel registered), and the trail of effects. *)
Record World := mkWorld {
  torrents : gmap string TorrentInfo;
  labels : gmap string Label;
  sched : Queue.State;
  managedTorrents : gset string;
  effects : list effect
}.

Inductive control := Continue | Break.

(** [TorrentProgress.Reset]. *)
Definition Reset (p : TorrentProgress) : TorrentProgress :=
  mkProgress (pHash p) (BytesCompleted p) (BytesUploaded p) 0 0 0 0 (Ratio p).

(** [TorrentProgress.Update]. Go's integer division truncates ([Z.quot]). *)
Definition Update (e : Engine) (p : TorrentProgress) : TorrentProgress :=
  let bpsUp := Z.quot (int64_wrap (BpsUp p + int64_wrap (BytesWritten e - BytesUploaded p))) 2 in
  let uploaded := BytesWritten e in
  let bpsDown := Z.quot (int64_wrap (BpsDown p + int64_wrap (Completed e - BytesCompleted p))) 2 in
  let completed := Completed e in
  let ratio :=
    if completed =? 0 then 0%Q
    else (inject_Z uploaded / inject_Z completed)%Q in
  mkProgress (pHash p) completed uploaded bpsUp bpsDown
             (StatsActivePeers e) (StatsTotalPeers e) ratio.

Definition emit (x : effect) (w : World) : World :=
  mkWorld (torrents w) (labels w) (sched w) (managedTorrents w) (effects w ++ [x]).

Definition with_sched (q : Queue.State) (w : World) : World :=
  mkWorld (torrents w) (labels w) q (managedTorrents w) (effects w).

(** [GetTorrentInfo]: [None] is the error result. *)
Definition GetTorrentInfo (hash : string) (w : World) : option TorrentInfo :=
  torrents w !! hash.

(** [TorrentInfo.SaveAndBroadcast]. *)
Definition SaveAndBroadcast (t : TorrentInfo) (w : World) : World :=
  emit (BroadcastInfo t)
       (mkWorld (<[Hash t := t]> (torrents w)) (labels w) (sched w)
                (managedTorrents w) (effects w)).

(** [TorrentInfo.GetLabel]. *)
Definition GetLabel (t : TorrentInfo) (w : World) : option Label :=
  labels w !! LabelID t.

(** The bytes of a path up to its next slash, and the rest from there. *)
Fixpoint path_elem (s : list Ascii.ascii) : list Ascii.ascii :=
  match s with
  | [] => []
  | c :: s' => if Ascii.eqb c "/"%char then [] else c :: path_elem s'
  end.

Fixpoint path_rest (s : list Ascii.ascii) : list Ascii.ascii :=
  match s with
  | [] => []
  | c :: s' => if Ascii.eqb c "/"%char then s else path_rest s'
  end.

(** [out.w--; for out.w > dotdot && out.index(out.w) != '/' { out.w-- }],
    entered with [w] already lowered by one. *)
Fixpoint path_backtrack (dotdot : nat) (out : list Ascii.ascii) (w : nat) : nat :=
  match w with
  | O => O
  | S w' =>
      if (dotdot <? S w')%nat && negb (Ascii.eqb (nth (S w') out "/"%char) "/"%char)
      then path_backtrack dotdot out w'
      else S w'
  end.

(** The loop of [path.Clean]: [rest] is [path[r:]], [out] the buffer
    written so far, [dotdot] the index below which [..] cannot backtrack.
    Every turn consumes a byte of [rest], so the length of the path is
    fuel enough. *)
Fixpoint path_Clean_loop (fuel : nat) (rooted : bool) (rest out : list Ascii.ascii)
    (dotdot : nat) : list Ascii.ascii :=
  match fuel, rest with
  | O, _ => out
  | _, [] => out
  | S fuel', c :: rest1 =>
      if Ascii.eqb c "/"%char then
        path_Clean_loop fuel' rooted rest1 out dotdot
      else if Ascii.eqb c "."%char &&
              match rest1 with [] => true | c1 :: _ => Ascii.eqb c1 "/"%char end then
        path_Clean_loop fuel' rooted rest1 out dotdot
      else if Ascii.eqb c "."%char &&
              match rest1 with
              | c1 :: rest2 =>
                  Ascii.eqb c1 "."%char &&
                  match rest2 with [] => true | c2 :: _ => Ascii.eqb c2 "/"%char end
              | [] => false
              end then
        let rest2 := tail rest1 in
        if (dotdot <? length out)%nat then
          let w := path_backtrack dotdot out (length out - 1) in
          path_Clean_loop fuel' rooted rest2 (take w out) dotdot
        else if negb rooted then
          let out1 :=
            (if (0 <? length out)%nat then out ++ ["/"%char] else out)
              ++ ["."%char; "."%char] in
          path_Clean_loop fuel' rooted rest2 out1 (length out1)
        else path_Clean_loop fuel' rooted rest2 out dotdot
      else
        let out1 :=
          if (rooted && negb (length out =? 1)%nat)
             || (negb rooted && negb (length out =? 0)%nat)
          then out ++ ["/"%char] else out in
        path_Clean_loop fuel' rooted (path_rest rest) (out1 ++ path_elem rest) dotdot
  end.

(** [path.Clean]. *)
Definition path_Clean (path : string) : string :=
  match String.list_ascii_of_string path with
  | [] => "."
  | c :: rest =>
      let rooted := Ascii.eqb c "/"%char in
      let out :=
        if rooted
        then path_Clean_loop (String.length path) true rest ["/"%char] 1
        else path_Clean_loop (String.length path) false (c :: rest) [] 0 in
      match out with
      | [] => "."
      | _ => String.string_of_list_ascii out
      end
  end.

(** [path.Join] of a directory and a name: the elements from the first
    non-empty one on, joined by slashes and cleaned; the empty string when
    both are empty. *)
Definition path_Join (dir name : string) : string :=
  if String.eqb dir "" then
    if String.eqb name "" then "" else path_Clean name
  else path_Clean (dir +:+ "/" +:+ name).

Section Driver.

(** The flags [-ratio] and [-downloads]. *)
Variable globalRatio : Q.
Variable downloadDir : string.

(** Lines 137-154 of [startTorrent]: move the data of a done torrent to
    the directory of its label. *)
Definition move_done_data (t : TorrentInfo) (fs : FileSystem) (w : World) : World :=
  match GetLabel t w with
  | None => emit (Log "failed to get label for done torrent") w
  | Some label =>
      if decide (MoveTo label = "") then w
      else if negb (mkdir_ok fs) then emit (Log "failed to mkdir") w
      else
        let w := emit (MkdirAll (MoveTo label)) w in
        let oldPath := path_Join downloadDir (Name t) in
        let newPath := path_Join (MoveTo label) (Name t) in
        if target_exists fs then emit (Log "failed moving done data, already exists") w
        else if negb (rename_ok fs) then emit (Log "failed moving done data") w
        else
          let w := emit (Rename oldPath newPath) w in
          if negb (symlink_ok fs) then emit (Log "failed making symlink to done data") w
          else emit (Symlink newPath oldPath) w
  end.

(** [if info.Status == StatusQueued { ... }] *)
Definition stage_queued (hash : string) (tw : TorrentInfo * World) : TorrentInfo * World :=
  let '(t, w) := tw in
  if decide (status t = StatusQueued)
  then (set_status StatusActive t, emit (DownloadAll hash) w)
  else (t, w).

(** [if info.Status == StatusActive { ... }] *)
Definition stage_active (p : TorrentProgress) (tw : TorrentInfo * World) : TorrentInfo * World :=
  let '(t, w) := tw in
  if decide (status t = StatusActive) then
    if TotalBytes t <=? BytesCompleted p then (set_status StatusDone t, w) else (t, w)
  else (t, w).

(** [globalRatio != -1 && progress.Ratio < globalRatio] *)
Definition seed_gate (p : TorrentProgress) : bool :=
  negb (Qeq_bool globalRatio (-1)) && negb (Qle_bool globalRatio (Ratio p)).

(** [if info.Status == StatusDone { ... queue.Done(hash) }] *)
Definition stage_done (hash : string) (p : TorrentProgress) (fs : FileSystem)
    (tw : TorrentInfo * World) : TorrentInfo * World :=
  let '(t, w) := tw in
  if decide (status t = StatusDone) then
    let w := move_done_data t fs w in
    let t := if seed_gate p then set_status StatusSeeding t else t in
    (t, with_sched (Queue.Done hash (sched w)) w)
  else (t, w).

(** [if info.Status == StatusSeeding { ... }] *)
Definition stage_seeding (p : TorrentProgress) (tw : TorrentInfo * World) : TorrentInfo * World :=
  let '(t, w) := tw in
  if decide (status t = StatusSeeding) then
    if Qle_bool globalRatio (Ratio p) then (set_status StatusDone t, w) else (t, w)
  else (t, w).

(** The four [if info.Status == ...] blocks, in the order of the source. *)
Definition stages (hash : string) (p : TorrentProgress) (fs : FileSystem)
    (tw : TorrentInfo * World) : TorrentInfo * World :=
  stage_seeding p (stage_done hash p fs (stage_active p (stage_queued hash tw))).

(** The body of the [for] loop after the [select], lines 106-173. *)
Definition tick (hash : string) (e : Engine) (fs : FileSystem)
    (w : World) (p : TorrentProgress) : World * TorrentProgress * control :=
  if negb (held e) then
    (emit (Log "client unexpectedly dropped") w, p, Break)
  else
    let p := Update e p in
    let w := emit (BroadcastProgress p) w in
    match GetTorrentInfo hash w with
    | None => (emit (Log "failed to get updated info") w, p, Break)
    | Some latest =>
        let '(t, w) := stages hash p fs (latest, w) in
        let w := SaveAndBroadcast t w in
        (w, p, if decide (status t = StatusDone) then Break else Continue)
    end.

(** What wakes the [select] at the head of the loop. *)
Inductive wake :=
| CloseSignal
| TickerFired (e : Engine) (fs : FileSystem).

(** One turn of the [for] loop; [Break] leaves it for the label [close]. *)
Definition loop_iteration (hash : string) (wk : wake)
    (w : World) (p : TorrentProgress) : World * TorrentProgress * control :=
  match wk with
  | CloseSignal => (w, p, Break)
  | TickerFired e fs => tick hash e fs w p
  end.

(** The code after the label [close], then the deferred function. *)
Definition close (hash : string) (e_held : bool) (w : World) (p : TorrentProgress)
  : World * TorrentProgress :=
  let w := if e_held then emit (Drop hash) w else w in
  let w := mkWorld (torrents w) (labels w) (Queue.Done hash (sched w))
                   (managedTorrents w ∖ {[hash]}) (effects w) in
  if decide (pHash p = "") then (w, p)
  else let p := Reset p in (emit (BroadcastProgress p) w, p).

(** [stopTorrent]: whether a close signal is sent, that is, whether
    [managedTorrents] holds a channel for [hash]. *)
Definition stopTorrent (hash : string) (w : World) : bool :=
  bool_decide (hash ∈ managedTorrents w).


(** [handleMsgTorrentStop] for a string payload, from the return of
    [stopTorrent] on: persist [StatusStopped].  The result is whether the
    signal was sent, the new world, and whether the handler succeeded. *)
Definition handleMsgTorrentStop (hash : string) (w : World) : bool * World * bool :=
  let signalled := stopTorrent hash w in
  match torrents w !! hash with
  | None => (signalled, w, false)
  | Some t => (signalled, SaveAndBroadcast (set_status StatusStopped t) w, true)
  end.


End Driver.

(** The torrent is [StatusDone] when the loop comes to line 136: it was
    reloaded as done, or it was active (or queued, hence made active in
    this very tick) with all its bytes completed. *)
Definition reaches_done (t : TorrentInfo) (e : Engine) : Prop :=
  status t = StatusDone
  ∨ ((status t = StatusActive ∨ status t = StatusQueued)
     ∧ TotalBytes t ≤ Completed e).

(** The record that [tick] saved for the torrent it reloaded under [hash]. *)
Definition saved_status (t : TorrentInfo) (w : World) : option Status :=
  status <$> torrents w !! Hash t.

End Worker.

(** Sample data for the examples below. *)
Module Sample.
Import Worker.

Definition info (st : Status) : TorrentInfo :=
  mkInfo "h" "name" 0 100 st "magnet:?xt=urn:btih:h" "".

(** One torrent ["h"], admitted from the backlog and driven by a worker. *)
Definition world (st : Status) : World :=
  mkWorld {["h" := info st]} ∅
          (Queue.run 1 [Queue.OpAdd "h"; Queue.OpAdd "g"; Queue.OpTick] Queue.init)
          {["h"]} [].

Definition progress : TorrentProgress := mkProgress "h" 0 0 0 0 0 0 0.
Definition engine (written completed : Z) : Engine := mkEngine true written completed 3 7.
Definition fs : FileSystem := mkFS true false true true.

End Sample.

(* ===================================================================== *)
(** * database: the general [Put], [Get], [Delete] and [All]             *)
(* ===================================================================== *)

Module DatabaseAPI.
Import Database.

(** The errors of the package, and those of [bolt.Bucket.Put] that pass
    through [Put]. *)
Inductive error :=
| ErrKeyNotValid
| ErrValueNotValid
| ErrNoSuchKey
| ErrKeyRequired
| ErrKeyTooLarge
| ErrValueTooLarge.

Inductive result (A : Type) :=
| Ok (a : A)
| Err (e : error).
Arguments Ok {A} a.
Arguments Err {A} e.

(** [const ( AutoIncrement = iota + 1; GetFirstKey; GetLastKey )] *)
Definition AutoIncrement : Z := 1.
Definition GetFirstKey : Z := 2.
Definition GetLastKey : Z := 3.

(** BoltDB's limits. *)
Definition MaxKeySize : N := 32768.
Definition MaxValueSize : N := 2 ^ 31 - 2.

(** The [key interface{}] of [Get] and [Delete]: the nil interface, an
    [int], or a value that [assertInterface] turns into bytes (a
    [metainfo.Hash], a byte slice, a string); [None] is the nil slice. *)
Inductive Key :=
| KeyNil
| KeyInt (n : Z)
| KeyBytes (k : option bytes).

(** The [key interface{}] of [Put]: [AutoIncrement], or a value that
    [assertInterface] turns into bytes.  Any other [int], and a struct,
    is marshalled to JSON there and is then a byte key like the others. *)
Inductive PutKey :=
| PutAutoIncrement
| PutBytes (k : option bytes).

(** [bolt.Bucket.Get] on the sorted entries; [None] is [nil]. *)
Fixpoint lookup_key (k : bytes) (l : list (bytes * string)) : option string :=
  match l with
  | [] => None
  | (k', v) :: l' =>
      if decide (bytes_compare k' k = Eq) then Some v else lookup_key k l'
  end.

Definition bucket_Get (k : bytes) (b : Bucket) : option string :=
  lookup_key k (entries b).

(** [b.Cursor().Last()]. *)
Definition cursor_Last (b : Bucket) : option (bytes * string) :=
  last (entries b).

(** [assertGetByKey]. *)
Definition assertGetByKey (key : Key) (b : Bucket) : result (bytes * string) :=
  match key with
  | KeyInt get =>
      let kv :=
        if get =? GetFirstKey then cursor_First b
        else if get =? GetLastKey then cursor_Last b
        else None in
      match kv with
      | Some (k, v) => Ok (k, v)
      | None => Err ErrNoSuchKey
      end
  | KeyBytes asserted =>
      let k := default [] asserted in
      match bucket_Get k b with
      | Some v => Ok (k, v)
      | None => Err ErrNoSuchKey
      end
  | KeyNil => Err ErrKeyNotValid
  end.

(** [bolt.Bucket.Put] with its checks of the key and the value. *)
Definition bolt_Put (k : bytes) (v : string) (b : Bucket) : result Bucket :=
  if decide (k = []) then Err ErrKeyRequired
  else if decide (MaxKeySize < N.of_nat (length k))%N then Err ErrKeyTooLarge
  else if decide (MaxValueSize < N.of_nat (String.length v))%N then Err ErrValueTooLarge
  else Ok (bucket_Put k v b).

(** [Put]; [val] is what [assertInterface] made of the value ([None] for
    [nil]).  An error rolls the transaction back: the bucket, its
    sequence included, stays as it was. *)
Definition Put (key : PutKey) (val : option string) (b : Bucket) : result Bucket :=
  match val with
  | None => Err ErrValueNotValid
  | Some buf =>
      match key with
      | PutAutoIncrement =>
          let '(id, b') := NextSequence b in
          bolt_Put (itob id) buf b'
      | PutBytes None => Err ErrKeyNotValid
      | PutBytes (Some k) => bolt_Put k buf b
      end
  end.

(** [Get]. *)
Definition Get (key : Key) (b : Bucket) : result string :=
  match assertGetByKey key b with
  | Ok (_, v) => Ok v
  | Err e => Err e
  end.

(** [Delete]. *)
Definition Delete (key : Key) (b : Bucket) : result Bucket :=
  match assertGetByKey key b with
  | Ok (k, _) => Ok (bucket_Delete k b)
  | Err e => Err e
  end.

(** [All]: [None] is the [nil] returned for an empty bucket. *)
Definition All (b : Bucket) : option (list string) :=
  match values b with
  | [] => None
  | all => Some all
  end.

(** [binary.BigEndian.Uint64], the inverse of [itob]. *)
Definition btoi (k : bytes) : N := foldl (λ acc x, acc * 256 + x)%N 0%N k.

(** BoltDB's order of a bucket: strictly increasing keys. *)
Definition sorted (b : Bucket) : Prop := StronglySorted entry_lt (entries b).

End DatabaseAPI.

(* ===================================================================== *)
(** * main: the whole of [startTorrent], and the handlers of the API     *)
(* ===================================================================== *)

Module Manage.
Import Worker.

(** The changes of status that a turn of the driver loop can make. *)
Inductive transition : Status → Status → Prop :=
| stay st : transition st st
| queued_active : transition StatusQueued StatusActive
| queued_done : transition StatusQueued StatusDone
| queued_seeding : transition StatusQueued StatusSeeding
| active_done : transition StatusActive StatusDone
| active_seeding : transition StatusActive StatusSeeding
| done_seeding : transition StatusDone StatusSeeding
| seeding_done : transition StatusSeeding StatusDone.

(** Every record of the [Torrents] bucket is stored under its own hash. *)
Definition store_consistent (w : World) : Prop :=
  ∀ h t, torrents w !! h = Some t → Hash t = h.

(** Every label that a record names exists. *)
Definition labels_resolved (w : World) : Prop :=
  ∀ h t, torrents w !! h = Some t → LabelID t ≠ "" → is_Some (labels w !! LabelID t).

(** [info.LabelID = id]. *)
Definition set_label (id : string) (t : TorrentInfo) : TorrentInfo :=
  mkInfo (Hash t) (Name t) (TimeAdded t) (TotalBytes t) (status t) (Magnet t) id.

(** What a handler sends out besides the records it saves. *)
Inductive notice :=
| BroadcastTorrentDelete (hash : string)
| BroadcastLabelDelete (id : string)
| RemoveAll (path : string).

(** A continuation byte of UTF-8. *)
Definition utf8_cont (x : N) : bool := ((128 <=? x) && (x <=? 191))%N.

(** [utf8.Valid] on the bytes of a string: Go's table of first bytes and
    of the ranges accepted for the second byte. *)
Fixpoint utf8_valid_bytes (l : list N) : bool :=
  match l with
  | [] => true
  | b0 :: l1 =>
      if (b0 <? 128)%N then utf8_valid_bytes l1
      else
        match l1 with
        | [] => false
        | b1 :: l2 =>
            if ((194 <=? b0) && (b0 <=? 223))%N then
              utf8_cont b1 && utf8_valid_bytes l2
            else
              match l2 with
              | [] => false
              | b2 :: l3 =>
                  if ((224 <=? b0) && (b0 <=? 239))%N then
                    (if (b0 =? 224)%N then ((160 <=? b1) && (b1 <=? 191))%N
                     else if (b0 =? 237)%N then ((128 <=? b1) && (b1 <=? 159))%N
                     else utf8_cont b1)
                    && utf8_cont b2 && utf8_valid_bytes l3
                  else
                    match l3 with
                    | [] => false
                    | b3 :: l4 =>
                        if ((240 <=? b0) && (b0 <=? 244))%N then
                          (if (b0 =? 240)%N then ((144 <=? b1) && (b1 <=? 191))%N
                           else if (b0 =? 244)%N then ((128 <=? b1) && (b1 <=? 143))%N
                           else utf8_cont b1)
                          && utf8_cont b2 && utf8_cont b3 && utf8_valid_bytes l4
                        else false
                    end
              end
        end
  end.

(** [utf8.ValidString].  [encoding/json] writes a string that is valid
    UTF-8 so that it reads back unchanged, and replaces the bytes of any
    other that are not by U+FFFD: a record whose strings are valid is the
    one that [GetTorrentInfo] returns after [SaveAndBroadcast]. *)
Definition utf8_valid (s : string) : bool :=
  utf8_valid_bytes (Ascii.N_of_ascii <$> String.list_ascii_of_string s).

(** What the torrent client and the clock answer to [addTorrentByMagnet]:
    the info hash of the parsed URI ([None] when it does not parse),
    whether the client holds that torrent, whether [AddMagnet] succeeds,
    and the name and length known once the info has arrived. *)
Record MagnetClient := mkMagnetClient {
  parsed : option string;
  client_holds : bool;
  add_magnet_ok : bool;
  now : Z;
  t_Name : string;
  t_Length : Z
}.

Inductive add_error :=
| ErrParseMagnet
| ErrTorrentExists
| ErrAddMagnet.

(** [addTorrentByMagnet], for a torrent whose info arrives: the wait
    [<-t.GotInfo()] for a new record returns. *)
Definition addTorrentByMagnet (uri : string) (c : MagnetClient) (w : World)
  : World * option add_error :=
  match parsed c with
  | None => (w, Some ErrParseMagnet)
  | Some hash =>
      if client_holds c then (w, Some ErrTorrentExists)
      else if negb (add_magnet_ok c) then (w, Some ErrAddMagnet)
      else
        let '(info, w) :=
          match GetTorrentInfo hash w with
          | Some info => (info, w)
          | None =>
              let info := mkInfo hash "" (now c) 0 StatusPending uri "" in
              let w := SaveAndBroadcast info w in
              (mkInfo hash (t_Name c) (now c) (t_Length c) StatusPending uri "", w)
          end in
        let info := set_status StatusQueued info in
        let w := SaveAndBroadcast info w in
        let w := emit (Drop hash) w in
        (with_sched (Queue.Add (Hash info) (sched w)) w, None)
  end.

(** [handleMsgTorrentDelete] for a payload with the given ["hash"] and
    ["withData"], with [stopTorrent] taken to return: whether the close
    signal was sent, the new world, what was sent out, and whether the
    handler succeeded. *)
Definition handleMsgTorrentDelete (downloadDir hash : string) (withData : bool)
    (w : World) : bool * World * list notice * bool :=
  match GetTorrentInfo hash w with
  | None => (false, w, [], false)
  | Some info =>
      let torrentName := Name info in
      let signalled := stopTorrent hash w in
      let w := mkWorld (delete hash (torrents w)) (labels w)
                       (Queue.Remove hash (sched w))
                       (managedTorrents w) (effects w) in
      let out := [BroadcastTorrentDelete hash] in
      let out :=
        if withData && negb (String.eqb torrentName "")
        then out ++ [RemoveAll (path_Join downloadDir torrentName)]
        else out in
      (signalled, w, out, true)
  end.


(** [handleMsgLabelSet] for a payload with the given ["hash"]; [labelID]
    is [None] when the payload has no string under ["labelID"]. *)
Definition handleMsgLabelSet (hash : string) (labelID : option string) (w : World)
  : World * bool :=
  match labelID with
  | None =>
      match GetTorrentInfo hash w with
      | None => (w, false)
      | Some info => (SaveAndBroadcast (set_label "" info) w, true)
      end
  | Some id =>
      match labels w !! id with
      | None => (w, false)
      | Some _ =>
          match GetTorrentInfo hash w with
          | None => (w, false)
          | Some info => (SaveAndBroadcast (set_label id info) w, true)
          end
      end
  end.

(** The order in which a cursor visits the keys of a bucket. *)
Definition key_le (a b : string * TorrentInfo) : Prop :=
  String.leb a.1 b.1 = true.

#[global] Instance key_le_dec a b : Decision (key_le a b).
Proof. unfold key_le. apply _. Defined.

(** [GetAllTorrentInfo]: the records in the order of their keys. *)
Definition GetAllTorrentInfo (w : World) : list TorrentInfo :=
  snd <$> merge_sort key_le (map_to_list (torrents w)).

(** The loop of [handleMsgLabelDelete] over the records read before it. *)
Definition unset_label (id : string) (all : list TorrentInfo) (w : World) : World :=
  foldl (λ w info,
           if decide (LabelID info = id)
           then SaveAndBroadcast (set_label "" info) w
           else w) w all.

(** [handleMsgLabelDelete]. *)
Definition handleMsgLabelDelete (id : string) (w : World) : World * list notice * bool :=
  match labels w !! id with
  | None => (w, [], false)
  | Some _ =>
      let w := mkWorld (torrents w) (delete id (labels w)) (sched w)
                       (managedTorrents w) (effects w) in
      (unset_label id (GetAllTorrentInfo w) w, [BroadcastLabelDelete id], true)
  end.

Section Driver.

Variable globalRatio : Q.
Variable downloadDir : string.

(** [startTorrent] up to its loop: register the close channel, load the
    record, add the magnet; [None] when the function has returned. *)
Definition prelude (hash : string) (add_ok : bool) (w : World)
  : World * option TorrentProgress :=
  let w := mkWorld (torrents w) (labels w) (sched w)
                   ({[hash]} ∪ managedTorrents w) (effects w) in
  let progress := mkProgress hash 0 0 0 0 0 0 0 in
  match GetTorrentInfo hash w with
  | None => (emit (Log "failed to get torrent info") w, None)
  | Some info =>
      if negb add_ok then (emit (Log "client failed to add magnet") w, None)
      else if decide (status info = StatusActive)
      then (emit (DownloadAll hash) w, Some progress)
      else (w, Some progress)
  end.

(** The [for] loop, woken by the given events in turn; [None] when they
    are used up and the loop is still waiting. *)
Fixpoint loop (hash : string) (wakes : list wake) (w : World) (p : TorrentProgress)
  : option (World * TorrentProgress) :=
  match wakes with
  | [] => None
  | wk :: rest =>
      let '(w', p', c) := loop_iteration globalRatio downloadDir hash wk w p in
      match c with
      | Break => Some (w', p')
      | Continue => loop hash rest w' p'
      end
  end.

Inductive outcome :=
| Returned (w : World)
| Waiting.

(** [startTorrent], run on its own: nothing else acts on the world
    between the turns of its loop. *)
Definition startTorrent (hash : string) (add_ok : bool) (wakes : list wake)
    (held_at_close : bool) (w : World) : outcome :=
  match prelude hash add_ok w with
  | (w1, None) => Returned w1
  | (w1, Some p) =>
      match loop hash wakes w1 p with
      | None => Waiting
      | Some (w2, p2) => Returned (close hash held_at_close w2 p2).1
      end
  end.

End Driver.

End Manage.

(* ===================================================================== *)
(** * queue: the goroutines step by step                                 *)
(* ===================================================================== *)

(** The operations of [Queue.step] are whole calls.  Here every access to
    the shared state is a step of its own, and the steps of [Run], of
    [Next] and of the callers of [Add], [Remove], [ForceNext] and [Done]
    interleave freely:
    - a database transaction ([Put], [Get], [Delete], [Remove]) is one
      step;
    - a send and its receive on one of the unbuffered channels [cDone],
      [cForce], [cNext] are one step; a change of [Run]'s local counter
      goes with the receive or the transaction next to it;
    - [activeHashes.Load], [Store] and [Delete] are one step each. *)
Module QueueFine.
Import Database Queue.

(** Where [Run] stands in its loop. *)
Inductive run_pc :=
| AtSelect
| ForceRemove (hash : string)
| ForceSend (hash : string)
| AtPoll
| PollSend (buf : string)
| PollDelete.

(** The shared state, where [Run] stands, the hash that [Next] has
    received and not yet stored ([Next] is called by one goroutine, the
    loop of [main]), the calls of [Done] whose [Load] has found the hash
    (those about to send on [cDone], and those that have sent and are
    about to [Delete]), and the goroutines of [ForceNext] about to send
    on [cForce]. *)
Record Fine := mkFine {
  shared : State;
  pc : run_pc;
  taking : option (origin * string);
  signalling : list string;
  deleting : list string;
  forcing : list string
}.

Definition fine_start (b : Bucket) : Fine :=
  mkFine (start b) AtSelect None [] [] [].

(** A state between whole operations. *)
Definition quiet (s : State) : Fine := mkFine s AtSelect None [] [] [].

(** One of the goroutines that wait with [hash] leaves the list. *)
Fixpoint take_out (hash : string) (l : list string) : option (list string) :=
  match l with
  | [] => None
  | x :: l' =>
      if decide (x = hash) then Some l'
      else cons x <$> take_out hash l'
  end.

(** [numActive++]. *)
Definition raise (s : State) : State :=
  mkState (queued s) (int_wrap (numActive s + 1)) (activeHashes s) (delivered s).

Inductive micro :=
| CallAdd (hash : string)
| CallRemove (hash : string)
| CallForceNext (hash : string)
| DoneLoads (hash : string)
| RunRecvDone (hash : string)
| RunRecvForce (hash : string)
| RunTicks
| RunRemoves
| RunPolls
| NextReceives
| NextStores
| RunDeletes
| DoneDeletes (hash : string).

(** One step; [None] when the step cannot be taken in the state:
    - [CallAdd], [CallRemove]: the transaction of [Add] or [Remove];
    - [CallForceNext]: [ForceNext] starts its goroutine;
    - [DoneLoads]: the [Load] of a call of [Done], which returns at once
      when the hash is not there;
    - [RunRecvDone], [RunRecvForce], [RunTicks]: the three cases of the
      [select], with the change of the counter;
    - [RunRemoves]: the [Remove] of the force branch;
    - [RunPolls]: the capacity check and the [Get] of the first key;
    - [NextReceives]: the send on [cNext] and its receive in [Next];
    - [NextStores]: the [Store] of [Next], which then returns the hash;
    - [RunDeletes]: the [Delete] of the first key;
    - [DoneDeletes]: the [Delete] that ends a call of [Done]. *)
Definition mstep (maxActive : Z) (m : micro) (f : Fine) : option Fine :=
  match m with
  | CallAdd hash =>
      Some (mkFine (Add hash (shared f)) (pc f) (taking f)
                   (signalling f) (deleting f) (forcing f))
  | CallRemove hash =>
      Some (mkFine (Remove hash (shared f)) (pc f) (taking f)
                   (signalling f) (deleting f) (forcing f))
  | CallForceNext hash =>
      Some (mkFine (shared f) (pc f) (taking f)
                   (signalling f) (deleting f) (forcing f ++ [hash]))
  | DoneLoads hash =>
      if decide (hash ∈ activeHashes (shared f))
      then Some (mkFine (shared f) (pc f) (taking f)
                        (hash :: signalling f) (deleting f) (forcing f))
      else Some f
  | RunRecvDone hash =>
      match pc f, take_out hash (signalling f) with
      | AtSelect, Some rest =>
          Some (mkFine (Run_select CaseDone (shared f)) AtPoll (taking f)
                       rest (hash :: deleting f) (forcing f))
      | _, _ => None
      end
  | RunRecvForce hash =>
      match pc f, take_out hash (forcing f) with
      | AtSelect, Some rest =>
          Some (mkFine (raise (shared f)) (ForceRemove hash) (taking f)
                       (signalling f) (deleting f) rest)
      | _, _ => None
      end
  | RunTicks =>
      match pc f with
      | AtSelect =>
          Some (mkFine (shared f) AtPoll (taking f)
                       (signalling f) (deleting f) (forcing f))
      | _ => None
      end
  | RunRemoves =>
      match pc f with
      | ForceRemove hash =>
          Some (mkFine (Remove hash (shared f)) (ForceSend hash) (taking f)
                       (signalling f) (deleting f) (forcing f))
      | _ => None
      end
  | RunPolls =>
      match pc f with
      | AtPoll =>
          if numActive (shared f) <? maxActive then
            match Get_FirstKey (queued (shared f)) with
            | Some buf =>
                Some (mkFine (raise (shared f)) (PollSend buf) (taking f)
                             (signalling f) (deleting f) (forcing f))
            | None =>
                Some (mkFine (shared f) AtSelect (taking f)
                             (signalling f) (deleting f) (forcing f))
            end
          else Some (mkFine (shared f) AtSelect (taking f)
                            (signalling f) (deleting f) (forcing f))
      | _ => None
      end
  | NextReceives =>
      match taking f, pc f with
      | None, ForceSend hash =>
          Some (mkFine (shared f) AtPoll (Some (Forced, hash))
                       (signalling f) (deleting f) (forcing f))
      | None, PollSend buf =>
          Some (mkFine (shared f) PollDelete (Some (Polled, buf))
                       (signalling f) (deleting f) (forcing f))
      | _, _ => None
      end
  | NextStores =>
      match taking f with
      | Some (o, hash) =>
          Some (mkFine (Next o hash (shared f)) (pc f) None
                       (signalling f) (deleting f) (forcing f))
      | None => None
      end
  | RunDeletes =>
      match pc f with
      | PollDelete =>
          Some (mkFine (mkState (Delete_FirstKey (queued (shared f)))
                                (numActive (shared f)) (activeHashes (shared f))
                                (delivered (shared f)))
                       AtSelect (taking f)
                       (signalling f) (deleting f) (forcing f))
      | _ => None
      end
  | DoneDeletes hash =>
      match take_out hash (deleting f) with
      | Some rest =>
          Some (mkFine (activeHashes_Delete hash (shared f)) (pc f) (taking f)
                       (signalling f) rest (forcing f))
      | None => None
      end
  end.

(** A sequence of steps; [None] when one of them cannot be taken. *)
Fixpoint mrun (maxActive : Z) (ms : list micro) (f : Fine) : option Fine :=
  match ms with
  | [] => Some f
  | m :: ms' =>
      match mstep maxActive m f with
      | Some f' => mrun maxActive ms' f'
      | None => None
      end
  end.

(** No two calls of [Done] for one hash overlap: when a call loads its
    hash, no other call for that hash is under way. *)
Fixpoint exclusive_Done (maxActive : Z) (ms : list micro) (f : Fine) : bool :=
  match ms with
  | [] => true
  | m :: ms' =>
      match m with
      | DoneLoads hash => bool_decide (hash ∉ signalling f ++ deleting f)
      | _ => true
      end
      && match mstep maxActive m f with
         | Some f' => exclusive_Done maxActive ms' f'
         | None => true
         end
  end.

Definition is_CallForceNext (m : micro) : bool :=
  match m with CallForceNext _ => true | _ => false end.

Definition is_RunRecvForce (m : micro) : bool :=
  match m with RunRecvForce _ => true | _ => false end.

(** [ForceNext] is never called. *)
Definition no_ForceNext (ms : list micro) : bool :=
  forallb (λ m, negb (is_CallForceNext m)) ms.

(** How many forced hashes [Run] has received. *)
Definition received_forces (ms : list micro) : Z :=
  Z.of_nat (length (filter (λ m, is_RunRecvForce m = true) ms)).

(** The hashes that are on their way into [activeHashes]: counted by
    [Run], not yet stored by [Next]. *)
Definition carrying (f : Fine) : Z :=
  match pc f with
  | ForceRemove _ | ForceSend _ | PollSend _ => 1
  | _ => 0
  end + match taking f with Some _ => 1 | None => 0 end.

(** How far the counter, together with the calls of [Done] that have
    signalled and not yet deleted, is ahead of the active set and the
    hashes on their way into it. *)
Definition fslack (f : Fine) : Z :=
  numActive (shared f) + Z.of_nat (length (deleting f))
  - Z.of_nat (size (activeHashes (shared f))) - carrying f.

(** What the states have in common that the goroutines reach while the
    calls of [Done] for one hash do not overlap: a hash has at most one
    call of [Done] under way, such a hash is in [activeHashes], the
    counter is not behind and lies between 0 and [bound]. *)
Definition fine_ok (bound : Z) (f : Fine) : Prop :=
  NoDup (signalling f ++ deleting f)
  ∧ (∀ h, h ∈ signalling f ++ deleting f → h ∈ activeHashes (shared f))
  ∧ 0 ≤ fslack f
  ∧ 0 ≤ numActive (shared f) ≤ bound.

(** [Run], [Next] and the callers hold nothing of [id]. *)
Definition holds_none (id : string) (f : Fine) : Prop :=
  pc f ≠ ForceRemove id ∧ pc f ≠ ForceSend id ∧ pc f ≠ PollSend id
  ∧ (∀ o, taking f ≠ Some (o, id))
  ∧ (id ∉ forcing f).

Definition is_call_for (id : string) (m : micro) : bool :=
  match m with
  | CallAdd h | CallForceNext h => bool_decide (h = id)
  | _ => false
  end.

(** The steps of a whole operation of [Queue.step], from a state between
    operations. *)
Definition poll_steps (maxActive : Z) (s : State) : list micro :=
  if numActive s <? maxActive then
    match Get_FirstKey (queued s) with
    | Some _ => [RunPolls; NextReceives; NextStores; RunDeletes]
    | None => [RunPolls]
    end
  else [RunPolls].

Definition micro_of_op (maxActive : Z) (o : op) (s : State) : list micro :=
  match o with
  | OpAdd hash => [CallAdd hash]
  | OpRemove hash => [CallRemove hash]
  | OpForceNext hash =>
      [CallForceNext hash; RunRecvForce hash; RunRemoves; NextReceives; NextStores]
      ++ poll_steps maxActive (Run_select (CaseForce hash) s)
  | OpDone hash delete_first =>
      if decide (hash ∈ activeHashes s) then
        if delete_first then
          [DoneLoads hash; RunRecvDone hash; DoneDeletes hash]
          ++ poll_steps maxActive (Done hash s)
        else
          [DoneLoads hash; RunRecvDone hash]
          ++ poll_steps maxActive (Run_select CaseDone s)
          ++ [DoneDeletes hash]
      else [DoneLoads hash]
  | OpTick => RunTicks :: poll_steps maxActive s
  end.

End QueueFine.

(* ===================================================================== *)
(** * Facts about the database layer                                     *)
(* ===================================================================== *)

Module DatabaseFacts.
Import Database.

Lemma byte_of_shift v k : N.land (N.shiftr v k) 255 = ((v / 2 ^ k) mod 256)%N.
Proof.
  rewrite N.shiftr_div_pow2. change 255%N with (N.ones 8).
  by rewrite N.land_ones.
Qed.

Lemma itob_be v : itob v = be 8 v.
Proof.
  unfold itob. rewrite !byte_of_shift.
  change (N.land v 255) with (N.land (N.shiftr v 0) 255). rewrite byte_of_shift.
  cbn [be app].
  rewrite !N.Div0.div_div, N.div_1_r.
  reflexivity.
Qed.

Lemma be_length n v : length (be n v) = n.
Proof.
  revert v; induction n as [|n IH]; intros v; simpl; [done|].
  rewrite length_app, IH. simpl. lia.
Qed.

Lemma bytes_compare_snoc a b x y :
  length a = length b →
  bytes_compare (a ++ [x]) (b ++ [y]) =
    match bytes_compare a b with Eq => (x ?= y)%N | c => c end.
Proof.
  revert b; induction a as [|a0 a IH]; intros [|b0 b] Hlen; simplify_eq/=.
  - by destruct (x ?= y)%N.
  - destruct (a0 ?= b0)%N; auto.
Qed.

(** Big-endian encoding on a fixed width preserves the order. *)
Lemma be_compare n v w :
  (v < 256 ^ N.of_nat n)%N → (w < 256 ^ N.of_nat n)%N →
  bytes_compare (be n v) (be n w) = (v ?= w)%N.
Proof.
  revert v w; induction n as [|n IH]; intros v w Hv Hw.
  - simpl in *. assert (v = 0%N) by lia. assert (w = 0%N) by lia. by subst.
  - cbn [be]. rewrite bytes_compare_snoc by (by rewrite !be_length).
    rewrite Nat2N.inj_succ, N.pow_succ_r' in Hv, Hw.
    rewrite IH by (apply N.Div0.div_lt_upper_bound; lia).
    pose proof (N.div_mod v 256 ltac:(lia)) as Ev.
    pose proof (N.div_mod w 256 ltac:(lia)) as Ew.
    pose proof (N.mod_lt v 256 ltac:(lia)).
    pose proof (N.mod_lt w 256 ltac:(lia)).
    clear IH Hv Hw.
    set (qv := (v / 256)%N) in *. set (qw := (w / 256)%N) in *.
    set (rv := (v mod 256)%N) in *. set (rw := (w mod 256)%N) in *.
    clearbody qv qw rv rw.
    destruct (N.compare_spec qv qw) as [E|L|G].
    + destruct (N.compare_spec rv rw);
        symmetry; [apply N.compare_eq_iff|apply N.compare_lt_iff|apply N.compare_gt_iff]; lia.
    + symmetry; apply N.compare_lt_iff; lia.
    + symmetry; apply N.compare_gt_iff; lia.
Qed.

Lemma itob_compare v w :
  (v < 2 ^ 64)%N → (w < 2 ^ 64)%N →
  bytes_compare (itob v) (itob w) = (v ?= w)%N.
Proof.
  intros Hv Hw. rewrite !itob_be. apply be_compare; exact Hv || exact Hw.
Qed.

Lemma bytes_compare_eq a b : bytes_compare a b = Eq ↔ a = b.
Proof.
  revert b; induction a as [|x a IH]; intros [|y b]; simpl; try (split; congruence).
  destruct (N.compare_spec x y) as [->|L|G].
  - rewrite IH. split; congruence.
  - split; [done|]. intros [= -> _]. lia.
  - split; [done|]. intros [= -> _]. lia.
Qed.

Lemma bytes_compare_refl a : bytes_compare a a = Eq.
Proof. by apply bytes_compare_eq. Qed.

Lemma bytes_compare_antisym a b : bytes_compare b a = CompOpp (bytes_compare a b).
Proof.
  revert b; induction a as [|x a IH]; intros [|y b]; simpl; try done.
  rewrite (N.compare_antisym x y). destruct (x ?= y)%N; simpl; auto.
Qed.

(** A key larger than all keys of a sorted list is put at its end. *)
Lemma insert_sorted_last k v l :
  Forall (λ e, bytes_lt (fst e) k) l →
  insert_sorted k v l = l ++ [(k, v)].
Proof.
  induction 1 as [|[k' v'] l Hlt _ IH]; simpl; [done|].
  unfold bytes_lt in Hlt; simpl in Hlt.
  rewrite bytes_compare_antisym, Hlt. simpl. by rewrite IH.
Qed.

Lemma StronglySorted_snoc {A} (R : relation A) l x :
  StronglySorted R l → Forall (λ y, R y x) l → StronglySorted R (l ++ [x]).
Proof.
  intros Hs Hall. apply StronglySorted_app_2.
  - intros y z Hy Hz. apply list_elem_of_singleton in Hz as ->.
    by eapply Forall_forall in Hall.
  - exact Hs.
  - repeat constructor.
Qed.

Lemma Forall_filter_keep {A} (Q P : A → Prop) `{∀ x, Decision (P x)} l :
  Forall Q l → Forall Q (filter P l).
Proof.
  rewrite !Forall_forall. intros HQ x Hx.
  apply list_elem_of_filter in Hx as [_ Hx]. auto.
Qed.

Lemma StronglySorted_filter {A} (R : relation A) (P : A → Prop)
    `{∀ x, Decision (P x)} l :
  StronglySorted R l → StronglySorted R (filter P l).
Proof.
  induction 1 as [|x l Hs IH Hall]; [constructor|].
  rewrite filter_cons. case_decide; [|done].
  constructor; [done|]. by apply Forall_filter_keep.
Qed.

Section Backlog.
Variable b : Bucket.
Hypothesis Hok : backlog_ok b.

(** With room in the counter, [Put_AutoIncrement] appends at the tail,
    under the next sequence number. *)
Lemma Put_AutoIncrement_entries val :
  (sequence b + 1 < 2 ^ 64)%N →
  Put_AutoIncrement val b =
    mkBucket (sequence b + 1) (entries b ++ [(itob (sequence b + 1), val)]).
Proof.
  intros Hroom. destruct Hok as (Hseq & Hsort & Hkeys).
  unfold Put_AutoIncrement, NextSequence, bucket_Put, uint64_wrap. simpl.
  rewrite N.mod_small by done. f_equal.
  apply insert_sorted_last.
  eapply Forall_impl; [exact Hkeys|].
  intros [k v] (n & Hk & Hn); simpl in *; subst k.
  unfold bytes_lt. rewrite itob_compare by lia. apply N.compare_lt_iff. lia.
Qed.

Lemma Put_AutoIncrement_ok val :
  (sequence b + 1 < 2 ^ 64)%N → backlog_ok (Put_AutoIncrement val b).
Proof.
  intros Hroom. rewrite Put_AutoIncrement_entries by done.
  destruct Hok as (Hseq & Hsort & Hkeys).
  split; [done|]. simpl. split.
  - apply StronglySorted_snoc; [done|].
    eapply Forall_impl; [exact Hkeys|].
    intros [k v] (n & Hk & Hn); simpl in *; subst k.
    unfold entry_lt, bytes_lt. cbn [fst].
    rewrite itob_compare by lia. apply N.compare_lt_iff. lia.
  - apply Forall_app. split.
    + eapply Forall_impl; [exact Hkeys|]. intros e (n & ? & ?). exists n. split; [done|lia].
    + repeat constructor. exists (sequence b + 1)%N. split; [done|lia].
Qed.

(** [Delete_FirstKey] removes exactly the entry that [Get_FirstKey] read. *)
Lemma Delete_FirstKey_entries :
  Delete_FirstKey b = mkBucket (sequence b) (tail (entries b)).
Proof.
  destruct Hok as (Hseq & Hsort & Hkeys).
  unfold Delete_FirstKey, cursor_First, bucket_Delete.
  destruct b as [sq [|[k v] l]]; simpl in *; [done|].
  f_equal. rewrite filter_cons. simpl.
  case_decide as Hk; [by rewrite bytes_compare_refl in Hk|].
  apply StronglySorted_inv in Hsort as [_ Hall].
  clear -Hall. induction l as [|[k' v'] l IH]; [done|].
  apply Forall_cons in Hall as [Hlt Hall].
  rewrite filter_cons. simpl. unfold entry_lt, bytes_lt in Hlt; simpl in Hlt.
  rewrite decide_True; [by rewrite IH|].
  rewrite bytes_compare_antisym, Hlt. done.
Qed.

Lemma Delete_FirstKey_ok : backlog_ok (Delete_FirstKey b).
Proof.
  rewrite Delete_FirstKey_entries.
  destruct Hok as (Hseq & Hsort & Hkeys).
  split; [done|]. simpl. destruct (entries b) as [|e l]; simpl; [done|].
  apply StronglySorted_inv in Hsort as [? _].
  apply Forall_cons in Hkeys as [_ ?]. done.
Qed.

End Backlog.

End DatabaseFacts.

(* ===================================================================== *)
(** * Facts about the admission scheduler                                *)
(* ===================================================================== *)

Module QueueFacts.
Import Database Queue DatabaseFacts.

Lemma int_wrap_id z : - 2 ^ 63 ≤ z < 2 ^ 63 → int_wrap z = z.
Proof. intros Hz. unfold int_wrap. rewrite Z.mod_small; lia. Qed.

Lemma run_cons k o ops s : run k (o :: ops) s = run k ops (step k o s).
Proof. reflexivity. Qed.

Lemma run_app k ops1 ops2 s : run k (ops1 ++ ops2) s = run k ops2 (run k ops1 s).
Proof. apply foldl_app. Qed.

(** When [Done] deletes after the poll, the outcome is that of deleting
    first, with [hash] deleted once more. *)
Lemma step_Done_late k hash s :
  step k (OpDone hash false) s
    = activeHashes_Delete hash (step k (OpDone hash true) s).
Proof.
  cbn [step]. unfold Done. case_decide as Hin.
  - unfold Run_iteration, Run_poll.
    cbn [Run_select activeHashes_Delete numActive queued activeHashes delivered].
    destruct (_ <? k); [|unfold activeHashes_Delete; simpl; f_equal; set_solver].
    destruct (Get_FirstKey (queued s));
      unfold activeHashes_Delete; simpl; f_equal; set_solver.
  - unfold activeHashes_Delete. destruct s; simpl. f_equal. set_solver.
Qed.




(** ** The admission counter dominates the active set *)

Lemma size_store (h : string) (X : gset string) :
  (size ({[h]} ∪ X) ≤ S (size X))%nat.
Proof.
  rewrite size_union_alt, size_singleton.
  assert (size (X ∖ {[h]}) ≤ size X)%nat
    by apply subseteq_size, subseteq_difference_l, reflexivity.
  lia.
Qed.

Lemma size_delete (h : string) (X : gset string) :
  h ∈ X → size (X ∖ {[h]}) = (size X - 1)%nat.
Proof.
  intros Hin. rewrite size_difference by set_solver. by rewrite size_singleton.
Qed.



Lemma Run_poll_full k s : k ≤ numActive s → Run_poll k s = s.
Proof.
  intros Hk. unfold Run_poll. by destruct (Z.ltb_spec (numActive s) k); [lia|].
Qed.

Lemma Done_counter bound hash s :
  bound < 2 ^ 63 → counter_ok bound s → counter_ok bound (Done hash s).
Proof.
  intros Hb [Hsz Hn]. unfold Done. case_decide as Hin; [|done].
  unfold counter_ok; simpl.
  rewrite size_delete by done.
  assert (0 < size (activeHashes s))%nat.
  { destruct (decide (size (activeHashes s) = 0%nat)) as [E%size_empty_inv|]; [|lia].
    set_solver. }
  rewrite int_wrap_id by lia.
  destruct (Z.ltb_spec (numActive s - 1) 0); lia.
Qed.




(** ** What [Done] does to the state *)

Lemma Done_not_member hash s : hash ∉ activeHashes s → Done hash s = s.
Proof. intros Hnin. unfold Done. by rewrite decide_False. Qed.

Lemma Done_removes hash s : hash ∉ activeHashes (Done hash s).
Proof.
  unfold Done. case_decide as Hin; [|done]. simpl. set_solver.
Qed.

Lemma Done_idempotent hash s : Done hash (Done hash s) = Done hash s.
Proof. apply Done_not_member, Done_removes. Qed.




Lemma Done_size hash s :
  hash ∈ activeHashes s →
  size (activeHashes (Done hash s)) = (size (activeHashes s) - 1)%nat.
Proof.
  intros Hin. unfold Done. rewrite decide_True by done. simpl.
  by apply size_delete.
Qed.

Lemma Run_poll_size k s :
  Z.of_nat (size (activeHashes s)) ≤ numActive s →
  Z.of_nat (size (activeHashes (Run_poll k s)))
    ≤ Z.max (Z.of_nat (size (activeHashes s))) k.
Proof.
  intros Hsz. unfold Run_poll.
  destruct (Z.ltb_spec (numActive s) k); [|lia].
  destruct (Get_FirstKey (queued s)) as [buf|]; [|lia]. simpl.
  pose proof (size_store buf (activeHashes s)). lia.
Qed.

(** A step that is not a forced admission cannot push the size of the
    active set above [maxActive]. *)
Lemma step_size_no_force k o bound s :
  bound < 2 ^ 63 → is_force o = false → counter_ok bound s →
  Z.of_nat (size (activeHashes (step k o s)))
    ≤ Z.max (Z.of_nat (size (activeHashes s))) k.
Proof.
  intros Hb Hnf Hs. pose proof Hs as [Hsz Hn].
  destruct o as [h|h|h|h delete_first|]; cbn [is_force] in Hnf; try done.
  - cbn. lia.
  - cbn. lia.
  - assert (Hfirst : Z.of_nat (size (activeHashes (step k (OpDone h true) s)))
                       ≤ Z.max (Z.of_nat (size (activeHashes s))) k).
    { cbn [step]. case_decide as Hin.
      + pose proof (Done_counter bound h s Hb Hs) as [Hsz' _].
        pose proof (Run_poll_size k (Done h s) Hsz').
        pose proof (Done_size h s Hin). lia.
      + unfold Done. rewrite decide_False by done. lia. }
    destruct delete_first; [exact Hfirst|].
    rewrite step_Done_late. cbn [activeHashes_Delete activeHashes].
    assert (size (activeHashes (step k (OpDone h true) s) ∖ {[h]})
              ≤ size (activeHashes (step k (OpDone h true) s)))%nat
      by apply subseteq_size, subseteq_difference_l, reflexivity.
    lia.
  - cbn [step]. unfold Run_iteration. simpl. by apply Run_poll_size.
Qed.

(** ** [Done] is guarded and idempotent *)



(** ** The backlog holds each hash once, as long as callers see to it *)

(** C8, as stated, fails: two [Add]s of one hash leave two entries. *)
Lemma C8_counterexample :
  ¬ NoDup (values (queued (run 1 [OpAdd "a"; OpAdd "a"] init))).
Proof.
  vm_compute. intros H. apply NoDup_cons in H as [H _].
  apply H. left.
Qed.

Lemma elem_of_values_insert_sorted k v l x :
  x ∈ snd <$> insert_sorted k v l → x = v ∨ x ∈ snd <$> l.
Proof.
  induction l as [|[k' v'] l IH]; simpl.
  - intros ->%list_elem_of_singleton. by left.
  - destruct (bytes_compare k k'); simpl; rewrite !elem_of_cons; naive_solver.
Qed.

Lemma NoDup_values_insert_sorted k v l :
  NoDup (snd <$> l) → v ∉ snd <$> l → NoDup (snd <$> insert_sorted k v l).
Proof.
  induction l as [|[k' v'] l IH]; simpl; intros Hnd Hv.
  - apply NoDup_singleton.
  - apply NoDup_cons in Hnd as [Hv' Hnd].
    apply not_elem_of_cons in Hv as [Hne Hv].
    destruct (bytes_compare k k'); simpl.
    + apply NoDup_cons. done.
    + apply NoDup_cons. split; [|by apply NoDup_cons].
      apply not_elem_of_cons. done.
    + apply NoDup_cons. split; [|by apply IH].
      intros [->|Hin]%elem_of_values_insert_sorted; done.
Qed.

Lemma values_filter_sublist (P : bytes * string → Prop) `{∀ e, Decision (P e)} l :
  snd <$> filter P l `sublist_of` snd <$> l.
Proof. apply fmap_sublist, sublist_filter. Qed.

Lemma values_Delete_FirstKey_sublist b :
  values (Delete_FirstKey b) `sublist_of` values b.
Proof.
  unfold Delete_FirstKey. destruct (cursor_First b) as [[k v]|]; [|done].
  apply values_filter_sublist.
Qed.

Lemma Run_poll_values_sublist k s :
  values (queued (Run_poll k s)) `sublist_of` values (queued s).
Proof.
  unfold Run_poll. destruct (numActive s <? k); [|done].
  destruct (Get_FirstKey (queued s)); [|done]. simpl.
  apply values_Delete_FirstKey_sublist.
Qed.

Lemma step_values_sublist k o s :
  is_add o = false → values (queued (step k o s)) `sublist_of` values (queued s).
Proof.
  destruct o as [h|h|h|h delete_first|]; simpl; intros Ho; try done.
  - apply values_filter_sublist.
  - unfold Run_iteration. etrans; [apply Run_poll_values_sublist|].
    simpl. apply values_filter_sublist.
  - case_decide as Hin.
    + destruct delete_first.
      * etrans; [apply Run_poll_values_sublist|].
        unfold Done. by rewrite decide_True.
      * unfold Run_iteration. cbn [activeHashes_Delete queued].
        etrans; [apply Run_poll_values_sublist|]. done.
    + unfold Done. by rewrite decide_False.
  - apply Run_poll_values_sublist.
Qed.

Lemma run_NoDup k ops s :
  NoDup (values (queued s)) → fresh_adds k ops s = true →
  NoDup (values (queued (run k ops s))).
Proof.
  revert s; induction ops as [|o ops IH]; intros s Hnd Hfresh; [done|].
  simpl in Hfresh. apply andb_prop in Hfresh as [Ho Hops].
  rewrite run_cons. apply IH; [|done].
  destruct (is_add o) eqn:Hadd.
  - destruct o as [h| | | |]; try done. simpl.
    apply bool_decide_eq_true in Ho.
    unfold Put_AutoIncrement, NextSequence, bucket_Put, values. simpl.
    by apply NoDup_values_insert_sorted.
  - eapply sublist_NoDup; [exact Hnd|]. by apply step_values_sublist.
Qed.

(** C8, amended. [Add] appends an entry for the hash whether or not the
    hash is already queued; the backlog holds every hash at most once
    after any sequence of operations in which each [Add] is called for a
    hash that has no backlog entry at that moment. *)
Theorem C8_backlog_unique_if_adds_fresh (k : Z) (s : State) (ops : list op) :
  NoDup (values (queued s)) →
  fresh_adds k ops s = true →
  NoDup (values (queued (run k ops s)))
  ∧ (∀ h, backlog_ok (queued s) → (sequence (queued s) + 1 < 2 ^ 64)%N →
       values (queued (Add h s)) = values (queued s) ++ [h]).
Proof.
  intros Hnd Hfresh. split; [by apply run_NoDup|].
  intros h Hok Hroom. simpl.
  rewrite Put_AutoIncrement_entries by done.
  unfold values. simpl. by rewrite fmap_app.
Qed.

Lemma C8_witness :
  NoDup (values (queued (run 1 [OpAdd "a"; OpAdd "b"; OpTick; OpAdd "a"] init))).
Proof.
  apply (C8_backlog_unique_if_adds_fresh 1 init
           [OpAdd "a"; OpAdd "b"; OpTick; OpAdd "a"]).
  - vm_compute. apply NoDup_nil_2.
  - vm_compute. reflexivity.
Defined.

(** ** A forced hash leaves the backlog *)

Lemma occurrences_app {A} `{EqDecision A} (x : A) l1 l2 :
  occurrences x (l1 ++ l2) = (occurrences x l1 + occurrences x l2)%nat.
Proof. unfold occurrences. by rewrite filter_app, length_app. Qed.

Lemma occurrences_cons {A} `{EqDecision A} (x y : A) l :
  occurrences x (y :: l) = ((if decide (y = x) then 1 else 0) + occurrences x l)%nat.
Proof. unfold occurrences. rewrite filter_cons. by case_decide. Qed.

Lemma occurrences_zero {A} `{EqDecision A} (x : A) l :
  occurrences x l = 0%nat ↔ x ∉ l.
Proof.
  induction l as [|y l IH].
  - split; [intros _; apply not_elem_of_nil|done].
  - rewrite occurrences_cons, not_elem_of_cons. case_decide; [|naive_solver lia].
    split; [lia|]. intros [? _]. congruence.
Qed.

Lemma occurrences_sublist {A} `{EqDecision A} (x : A) l1 l2 :
  l1 `sublist_of` l2 → (occurrences x l1 ≤ occurrences x l2)%nat.
Proof.
  induction 1 as [|y l1 l2 _ IH|y l1 l2 _ IH]; [done|..];
    rewrite ?occurrences_cons; lia.
Qed.

Lemma occurrences_values_insert_sorted id k v l :
  (occurrences id (snd <$> insert_sorted k v l)
     ≤ occurrences id (snd <$> l) + (if decide (v = id) then 1 else 0))%nat.
Proof.
  induction l as [|[k' v'] l IH]; cbn [insert_sorted].
  - rewrite !fmap_cons, occurrences_cons. cbn [snd fmap list_fmap].
    destruct (decide (v = id)); lia.
  - destruct (bytes_compare k k'); rewrite !fmap_cons, !occurrences_cons;
      cbn [snd]; destruct (decide (v = id)), (decide (v' = id)); lia.
Qed.

(** What a turn of the poll delivers, and what it takes from the backlog. *)
Lemma Run_poll_account k id s :
  ∃ d, delivered (Run_poll k s) = delivered s ++ d
     ∧ Forall (λ e, fst e = Polled) d
     ∧ (occurrences (Polled, id) d + occurrences id (values (queued (Run_poll k s)))
          ≤ occurrences id (values (queued s)))%nat.
Proof.
  unfold Run_poll. destruct (numActive s <? k);
    [|exists []; rewrite app_nil_r; split; [done|split; [constructor|simpl; lia]]].
  destruct (Get_FirstKey (queued s)) as [buf|] eqn:Hget;
    [|exists []; rewrite app_nil_r; split; [done|split; [constructor|simpl; lia]]].
  exists [(Polled, buf)]. simpl. split; [done|]. split; [by repeat constructor|].
  unfold Get_FirstKey, Delete_FirstKey, cursor_First, values, bucket_Delete in *.
  destruct (entries (queued s)) as [|[k0 v0] l]; simplify_eq/=.
  rewrite filter_cons. simpl. rewrite decide_False
    by (intros Hne; apply Hne, bytes_compare_refl).
  rewrite !occurrences_cons. unfold occurrences at 1. simpl.
  pose proof (occurrences_sublist id _ _
    (values_filter_sublist (λ e, bytes_compare e.1 k0 ≠ Eq) l)).
  repeat case_decide; simplify_eq; lia.
Qed.

Lemma occurrences_Put_AutoIncrement id h b :
  (occurrences id (values (Put_AutoIncrement h b))
     ≤ occurrences id (values b) + occurrences id [h])%nat.
Proof.
  unfold Put_AutoIncrement, NextSequence, bucket_Put, values. cbn [entries].
  rewrite (occurrences_cons id h []).
  etrans; [apply occurrences_values_insert_sorted|].
  unfold occurrences at 3. simpl. lia.
Qed.

Lemma occurrences_remove_matching id h b :
  (occurrences id (values (remove_matching h b)) ≤ occurrences id (values b))%nat.
Proof. apply occurrences_sublist, values_filter_sublist. Qed.

Lemma step_account k id o s :
  ∃ d, delivered (step k o s) = delivered s ++ d
     ∧ (∀ e, e ∈ d → fst e = Polled ∨ o = OpForceNext (snd e))
     ∧ (occurrences (Polled, id) d + occurrences id (values (queued (step k o s)))
          ≤ occurrences id (values (queued s)) + occurrences id (added [o]))%nat.
Proof.
  assert (Hpoll : ∀ s0,
    (occurrences id (values (queued s0))
       ≤ occurrences id (values (queued s)) + occurrences id (added [o]))%nat →
    delivered s0 = delivered s →
    ∃ d, delivered (Run_poll k s0) = delivered s ++ d
     ∧ (∀ e, e ∈ d → fst e = Polled ∨ o = OpForceNext (snd e))
     ∧ (occurrences (Polled, id) d + occurrences id (values (queued (Run_poll k s0)))
          ≤ occurrences id (values (queued s)) + occurrences id (added [o]))%nat).
  { intros s0 Hle Hd. destruct (Run_poll_account k id s0) as (d & Hd' & Hall & Hacc).
    exists d. rewrite Hd', Hd. split; [done|]. split; [|lia].
    intros e He. left. by eapply Forall_forall in Hall. }
  destruct o as [h|h|h|h delete_first|]; cbn [step].
  - exists []. rewrite app_nil_r. split; [done|]. split; [by intros e ?%elem_of_nil|].
    apply (occurrences_Put_AutoIncrement id h (queued s)).
  - exists []. rewrite app_nil_r. split; [done|]. split; [by intros e ?%elem_of_nil|].
    pose proof (occurrences_remove_matching id h (queued s)).
    cbn [Remove queued]. unfold occurrences at 1. simpl. lia.
  - unfold Run_iteration.
    destruct (Run_poll_account k id (Run_select (CaseForce h) s)) as (d & Hd & Hall & Hacc).
    exists ((Forced, h) :: d). rewrite Hd. cbn [Run_select Next Remove delivered].
    rewrite <- app_assoc. split; [done|]. split.
    + intros e [->|He]%elem_of_cons; [by right|left].
      by eapply Forall_forall in Hall.
    + rewrite occurrences_cons. rewrite decide_False by done.
      pose proof (occurrences_remove_matching id h (queued s)).
      cbn [Run_select Next Remove queued] in Hacc. lia.
  - unfold Done. case_decide.
    + destruct delete_first.
      * apply Hpoll; [cbn [activeHashes_Delete Run_select queued]; lia|done].
      * unfold Run_iteration. cbn [activeHashes_Delete queued delivered].
        apply Hpoll; [cbn [Run_select queued]; lia|done].
    + exists []. rewrite app_nil_r. split; [done|]. split; [by intros e ?%elem_of_nil|].
      unfold occurrences at 1. simpl. lia.
  - unfold Run_iteration. cbn [Run_select]. apply Hpoll; [lia|done].
Qed.

Lemma added_cons o ops : added (o :: ops) = added [o] ++ added ops.
Proof. by destruct o. Qed.

Lemma run_account k id ops s :
  ∃ d, delivered (run k ops s) = delivered s ++ d
     ∧ (∀ e, e ∈ d → fst e = Polled ∨ OpForceNext (snd e) ∈ ops)
     ∧ (occurrences (Polled, id) d + occurrences id (values (queued (run k ops s)))
          ≤ occurrences id (values (queued s)) + occurrences id (added ops))%nat.
Proof.
  revert s; induction ops as [|o ops IH]; intros s.
  - exists []. rewrite app_nil_r. split; [done|]. split; [by intros e ?%elem_of_nil|].
    unfold occurrences at 1. simpl. lia.
  - rewrite run_cons, added_cons, occurrences_app.
    destruct (step_account k id o s) as (d1 & Hd1 & Ho1 & Hacc1).
    destruct (IH (step k o s)) as (d2 & Hd2 & Ho2 & Hacc2).
    exists (d1 ++ d2). rewrite Hd2, Hd1, <- app_assoc. split; [done|]. split.
    + intros e [He|He]%elem_of_app.
      * destruct (Ho1 e He) as [?|?]; [by left|right]. subst o. left.
      * destruct (Ho2 e He) as [?|?]; [by left|right]. by right.
    + rewrite occurrences_app. lia.
Qed.

(** C9. Handling a [ForceNext id] signal, [Run] sends [id] on [cNext] in
    a state whose backlog has no entry for [id] any more.  In whatever
    follows, the polled deliveries of [id] are at most as many as the
    later [Add id] calls: without a later [Add id], the backlog path
    never delivers [id] again. *)
Theorem C9_force_purges_backlog (k : Z) (id : string) (s : State) (ops : list op) :
  (∃ s1, Run_select (CaseForce id) s = Next Forced id s1
         ∧ id ∉ values (queued s1))
  ∧ (id ∉ values (queued (step k (OpForceNext id) s)))
  ∧ (∃ later,
      (delivered (run k ops (step k (OpForceNext id) s))
         = delivered s ++ ((Forced, id) :: later))
      ∧ (occurrences (Polled, id) later ≤ occurrences id (added ops))%nat
      ∧ (id ∉ added ops →
           ((Polled, id) ∉ later)
           ∧ (id ∉ values (queued (run k ops (step k (OpForceNext id) s)))))).
Proof.
  assert (Hpurged : id ∉ values (remove_matching id (queued s))).
  { unfold values, remove_matching. cbn [entries].
    intros (e & -> & [He _]%list_elem_of_filter)%list_elem_of_fmap. done. }
  assert (Hstep : id ∉ values (queued (step k (OpForceNext id) s))).
  { intros Hin. apply Hpurged.
    eapply elem_of_sublist; [exact Hin|].
    cbn [step]. unfold Run_iteration.
    etrans; [apply Run_poll_values_sublist|]. done. }
  split; [|split; [exact Hstep|]].
  - eexists. split; [reflexivity|]. exact Hpurged.
  - destruct (Run_poll_account k id (Run_select (CaseForce id) s))
      as (d0 & Hd0 & _ & Hacc0).
    destruct (run_account k id ops (step k (OpForceNext id) s))
      as (d & Hd & _ & Hacc).
    apply occurrences_zero in Hstep. apply occurrences_zero in Hpurged.
    exists (d0 ++ d). split; [|split].
    + rewrite Hd. cbn [step]. unfold Run_iteration. rewrite Hd0.
      cbn [Run_select Next Remove delivered]. by rewrite <- !app_assoc.
    + cbn [Run_select Next Remove queued] in Hacc0.
      rewrite occurrences_app. lia.
    + cbn [Run_select Next Remove queued] in Hacc0.
      intros Hno%occurrences_zero. split.
      * apply occurrences_zero. rewrite occurrences_app. lia.
      * apply occurrences_zero. lia.
Qed.

Lemma C9_witness :
  ∃ later,
    (delivered (run 2 [OpAdd "b"; OpTick; OpTick]
                  (step 2 (OpForceNext "a") (run 2 [OpAdd "a"; OpAdd "a"] init)))
       = delivered (run 2 [OpAdd "a"; OpAdd "a"] init) ++ ((Forced, "a") :: later))
    ∧ ((Polled, "a") ∉ later).
Proof.
  destruct (C9_force_purges_backlog 2 "a" (run 2 [OpAdd "a"; OpAdd "a"] init)
              [OpAdd "b"; OpTick; OpTick]) as (_ & _ & later & Hd & _ & Hno).
  exists later. split; [exact Hd|].
  apply Hno. vm_compute. intros H. apply elem_of_cons in H as [H|H]; [discriminate H|].
  by apply elem_of_nil in H.
Defined.

(** ** First in, first out *)

Lemma adds_cons o ops : adds (o :: ops) = (adds [o] + adds ops)%N.
Proof. unfold adds. rewrite added_cons, length_app. lia. Qed.

Lemma remove_matching_ok hash b : backlog_ok b → backlog_ok (remove_matching hash b).
Proof.
  intros (Hseq & Hsort & Hkeys). split; [done|]. split; simpl.
  - by apply StronglySorted_filter.
  - by apply Forall_filter_keep.
Qed.

Lemma Run_poll_fifo k s :
  backlog_ok (queued s) →
  backlog_ok (queued (Run_poll k s))
  ∧ sequence (queued (Run_poll k s)) = sequence (queued s)
  ∧ yielded (Run_poll k s) ++ values (queued (Run_poll k s))
      = yielded s ++ values (queued s).
Proof.
  intros Hok. unfold Run_poll. destruct (numActive s <? k); [|done].
  destruct (Get_FirstKey (queued s)) as [buf|] eqn:Hget; [|done].
  cbn [Next queued delivered].
  split; [by apply Delete_FirstKey_ok|].
  rewrite Delete_FirstKey_entries by done. split; [done|].
  unfold Get_FirstKey, cursor_First, yielded, values in *. cbn [entries delivered].
  destruct (entries (queued s)) as [|[k0 v0] l]; simplify_eq/=.
  by rewrite fmap_app, <- app_assoc.
Qed.

Lemma step_fifo k o s :
  backlog_ok (queued s) →
  (sequence (queued s) + adds [o] < 2 ^ 64)%N →
  is_force o = false →
  backlog_ok (queued (step k o s))
  ∧ sequence (queued (step k o s)) = (sequence (queued s) + adds [o])%N
  ∧ (is_remove o = false →
       yielded (step k o s) ++ values (queued (step k o s))
         = (yielded s ++ values (queued s)) ++ added [o])
  ∧ yielded (step k o s) ++ values (queued (step k o s))
      `sublist_of` (yielded s ++ values (queued s)) ++ added [o].
Proof.
  intros Hok Hroom Hnf.
  assert (Hpoll : ∀ s0, queued s0 = queued s → delivered s0 = delivered s →
    backlog_ok (queued (Run_poll k s0))
    ∧ sequence (queued (Run_poll k s0)) = (sequence (queued s) + 0)%N
    ∧ (yielded (Run_poll k s0) ++ values (queued (Run_poll k s0))
         = (yielded s ++ values (queued s)) ++ [])).
  { intros s0 Hq Hd. destruct (Run_poll_fifo k s0) as (H1 & H2 & H3).
    { by rewrite Hq. }
    rewrite H2, H3, Hq, N.add_0_r, app_nil_r. unfold yielded. by rewrite Hd. }
  destruct o as [h|h|h|h delete_first|]; try done; cbn [step].
  - cbn [Add queued]. rewrite Put_AutoIncrement_entries by done.
    split; [rewrite <- (Put_AutoIncrement_entries _ Hok h) by done;
            by apply Put_AutoIncrement_ok|].
    split; [done|].
    assert (yielded (Add h s) ++ values (mkBucket (sequence (queued s) + 1)
              (entries (queued s) ++ [(itob (sequence (queued s) + 1), h)]))
            = (yielded s ++ values (queued s)) ++ added [OpAdd h]) as ->.
    { unfold values, yielded. cbn [entries Add delivered added omap].
      by rewrite fmap_app, app_assoc. }
    done.
  - cbn [Remove queued]. split; [by apply remove_matching_ok|].
    split; [cbn; by rewrite N.add_0_r|]. split; [done|].
    cbn [added omap]. rewrite app_nil_r.
    apply sublist_app; [done|]. apply values_filter_sublist.
  - unfold Done. case_decide.
    + assert (Hgoal : ∀ s0, queued s0 = queued s → delivered s0 = delivered s →
        ∀ s1, queued s1 = queued (Run_poll k s0) →
              delivered s1 = delivered (Run_poll k s0) →
        backlog_ok (queued s1)
        ∧ sequence (queued s1) = (sequence (queued s) + adds [OpDone h delete_first])%N
        ∧ (is_remove (OpDone h delete_first) = false →
             yielded s1 ++ values (queued s1)
               = (yielded s ++ values (queued s)) ++ added [OpDone h delete_first])
        ∧ yielded s1 ++ values (queued s1)
            `sublist_of` (yielded s ++ values (queued s)) ++ added [OpDone h delete_first]).
      { intros s0 Hq0 Hd0 s1 Hq1 Hd1.
        destruct (Hpoll s0 Hq0 Hd0) as (H1 & H2 & H3).
        unfold yielded in *. rewrite Hq1, Hd1.
        split; [done|]. split; [done|]. by rewrite H3. }
      destruct delete_first.
      * eapply Hgoal; [| |reflexivity|reflexivity]; done.
      * unfold Run_iteration. eapply Hgoal; [| |reflexivity|reflexivity]; done.
    + split; [done|]. split; [cbn; by rewrite N.add_0_r|].
      cbn [added omap]. by rewrite app_nil_r.
  - unfold Run_iteration. cbn [Run_select].
    destruct (Hpoll s) as (H1 & H2 & H3); [done|done|].
    split; [done|]. split; [done|]. by rewrite H3.
Qed.

Lemma step_delivered_polled k o s :
  is_force o = false →
  Forall (λ d, fst d = Polled) (delivered s) →
  Forall (λ d, fst d = Polled) (delivered (step k o s)).
Proof.
  intros Hnf Hall.
  destruct (step_account k "" o s) as (d & Heq & Hd & _).
  rewrite Heq. apply Forall_app. split; [done|]. apply Forall_forall. intros e He.
  destruct (Hd e He) as [?|Ho]; [done|]. by rewrite Ho in Hnf.
Qed.

Lemma run_fifo k ops s :
  backlog_ok (queued s) →
  (sequence (queued s) + adds ops < 2 ^ 64)%N →
  no_force ops = true →
  backlog_ok (queued (run k ops s))
  ∧ sequence (queued (run k ops s)) = (sequence (queued s) + adds ops)%N
  ∧ (Forall (λ d, fst d = Polled) (delivered s) →
     Forall (λ d, fst d = Polled) (delivered (run k ops s)))
  ∧ (no_remove ops = true →
       yielded (run k ops s) ++ values (queued (run k ops s))
         = (yielded s ++ values (queued s)) ++ added ops)
  ∧ yielded (run k ops s) ++ values (queued (run k ops s))
      `sublist_of` (yielded s ++ values (queued s)) ++ added ops.
Proof.
  revert s; induction ops as [|o ops IH]; intros s Hok Hroom Hnf.
  - cbn. rewrite N.add_0_r, app_nil_r. done.
  - rewrite adds_cons in Hroom. cbn [no_force forallb] in Hnf.
    apply andb_prop in Hnf as [Ho Hops]. apply negb_true_iff in Ho.
    destruct (step_fifo k o s) as (H1 & H2 & H3 & H4); [done|lia|done|].
    destruct (IH (step k o s)) as (I1 & I2 & I3 & I4 & I5); [done|lia|done|].
    rewrite run_cons, adds_cons, added_cons.
    split; [done|]. split; [lia|]. split; [|split].
    + intros Hall. by apply I3, step_delivered_polled.
    + cbn [no_remove forallb]. intros Hr. apply andb_prop in Hr as [Hr Hrs].
      apply negb_true_iff in Hr.
      rewrite I4, H3 by done. by rewrite <- !app_assoc.
    + etrans; [exact I5|]. rewrite (app_assoc _ (added [o])).
      by apply sublist_app.
Qed.

(** C4. Without forced admissions, on a backlog that was filled through
    [Add] (and whose counter does not wrap during the sequence), the
    keys stay strictly increasing in byte order, because [itob] preserves
    the order of the sequence numbers; every pop takes the first entry;
    every delivery comes from the backlog; and the hashes delivered so
    far, followed by those still queued, are exactly the hashes of the
    backlog at start followed by the [Add]ed ones in call order (a
    subsequence of that when [Remove] calls occur). *)
Theorem C4_fifo_without_force (k : Z) (b : Bucket) (ops : list op) :
  backlog_ok b →
  (sequence b + adds ops < 2 ^ 64)%N →
  no_force ops = true →
  let s := run k ops (start b) in
  StronglySorted entry_lt (entries (queued s))
  ∧ (∀ v w, (v < w < 2 ^ 64)%N → bytes_lt (itob v) (itob w))
  ∧ (∀ s' key h rest, numActive s' < k → entries (queued s') = (key, h) :: rest →
       delivered (Run_poll k s') = delivered s' ++ [(Polled, h)])
  ∧ polled s = yielded s
  ∧ (no_remove ops = true → yielded s ++ values (queued s) = values b ++ added ops)
  ∧ yielded s ++ values (queued s) `sublist_of` values b ++ added ops.
Proof.
  intros Hok Hroom Hnf s.
  destruct (run_fifo k ops (start b) Hok Hroom Hnf) as (H1 & H2 & H3 & H4 & H5).
  fold s in H1, H2, H3, H4, H5. split; [apply H1|]. split; [|split; [|split]].
  - intros v w Hvw. unfold bytes_lt. rewrite itob_compare by lia.
    apply N.compare_lt_iff. lia.
  - intros s' key h rest Hlt Hent. unfold Run_poll.
    destruct (Z.ltb_spec (numActive s') k); [|lia].
    unfold Get_FirstKey, cursor_First. rewrite Hent. done.
  - unfold polled, yielded. f_equal.
    assert (Hall : Forall (λ d, fst d = Polled) (delivered s)) by (apply H3; constructor).
    clear -Hall. induction Hall as [|d l Hd _ IH]; [done|].
    rewrite filter_cons. by rewrite decide_True, IH.
  - split; [exact H4|exact H5].
Qed.

Lemma C4_witness :
  let s := run 1 [OpAdd "a"; OpAdd "b"; OpTick; OpAdd "c"; OpDone "a" true] init in
  yielded s ++ values (queued s) = ["a"; "b"; "c"].
Proof.
  intros s.
  destruct (C4_fifo_without_force 1 (mkBucket 0%N [])
              [OpAdd "a"; OpAdd "b"; OpTick; OpAdd "c"; OpDone "a" true])
    as (_ & _ & _ & _ & H & _).
  - split; [vm_compute; reflexivity|split; constructor].
  - vm_compute. reflexivity.
  - reflexivity.
  - apply H. reflexivity.
Defined.

(** ** The active set grows through deliveries only *)

Lemma Run_poll_active k s :
  ∃ d, delivered (Run_poll k s) = delivered s ++ d
     ∧ activeHashes (Run_poll k s) ⊆ activeHashes s ∪ list_to_set (snd <$> d).
Proof.
  unfold Run_poll. destruct (numActive s <? k);
    [|exists []; rewrite app_nil_r; split; [done|set_solver]].
  destruct (Get_FirstKey (queued s)) as [buf|];
    [|exists []; rewrite app_nil_r; split; [done|set_solver]].
  exists [(Polled, buf)]. split; [done|]. simpl. set_solver.
Qed.

Lemma step_active k o s :
  ∃ d, delivered (step k o s) = delivered s ++ d
     ∧ activeHashes (step k o s) ⊆ activeHashes s ∪ list_to_set (snd <$> d).
Proof.
  destruct o as [h|h|h|h delete_first|]; cbn [step].
  - exists []. rewrite app_nil_r. split; [done|]. simpl. set_solver.
  - exists []. rewrite app_nil_r. split; [done|]. simpl. set_solver.
  - unfold Run_iteration.
    destruct (Run_poll_active k (Run_select (CaseForce h) s)) as (d & Hd & Hsub).
    exists ((Forced, h) :: d). rewrite Hd. cbn [Run_select Next Remove delivered].
    rewrite <- app_assoc. split; [done|].
    cbn [Run_select Next Remove activeHashes] in Hsub. set_solver.
  - unfold Done, Run_iteration. case_decide.
    + destruct delete_first;
        match goal with |- context [Run_poll k ?s0] =>
          destruct (Run_poll_active k s0) as (d & Hd & Hsub) end;
        exists d; (split; [exact Hd|]);
        cbn [Run_select activeHashes_Delete activeHashes] in *; set_solver.
    + exists []. rewrite app_nil_r. split; [done|]. set_solver.
  - unfold Run_iteration. cbn [Run_select]. apply Run_poll_active.
Qed.

Lemma run_active k ops s :
  ∃ d, delivered (run k ops s) = delivered s ++ d
     ∧ activeHashes (run k ops s) ⊆ activeHashes s ∪ list_to_set (snd <$> d).
Proof.
  revert s; induction ops as [|o ops IH]; intros s.
  - exists []. rewrite app_nil_r. split; [done|]. set_solver.
  - rewrite run_cons.
    destruct (step_active k o s) as (d1 & Hd1 & Hs1).
    destruct (IH (step k o s)) as (d2 & Hd2 & Hs2).
    exists (d1 ++ d2). rewrite Hd2, Hd1, <- app_assoc. split; [done|].
    rewrite fmap_app, list_to_set_app_L. set_solver.
Qed.

(** A hash that is not active, and is not delivered again, stays out of
    the active set, so that [Done] for it changes nothing. *)
Lemma Done_after_release k ops hash s later :
  hash ∉ activeHashes s →
  delivered (run k ops s) = delivered s ++ later →
  hash ∉ snd <$> later →
  Done hash (run k ops s) = run k ops s.
Proof.
  intros Hnin Hd Hlater. apply Done_not_member.
  destruct (run_active k ops s) as (d & Hd' & Hsub).
  rewrite Hd in Hd'. apply app_inv_head in Hd' as <-.
  intros Hin. apply Hsub in Hin. set_solver.
Qed.

End QueueFacts.

(* ===================================================================== *)
(** * Facts about the driver loop                                        *)
(* ===================================================================== *)

Module WorkerFacts.
Import Database Queue Worker QueueFacts.

(** Projections of explicit records and matches on explicit pairs. *)
Ltac record_norm :=
  cbn [status set_status Hash Name TimeAdded TotalBytes Magnet LabelID fst snd].

Lemma sched_emit x w : sched (emit x w) = sched w.
Proof. done. Qed.

Lemma torrents_emit x w : torrents (emit x w) = torrents w.
Proof. done. Qed.

Lemma sched_move_done_data dir t fs w : sched (move_done_data dir t fs w) = sched w.
Proof.
  unfold move_done_data. destruct (GetLabel t w); [|done].
  case_decide; [done|]. by repeat (match goal with |- context [if ?b then _ else _] => destruct b end).
Qed.

Lemma torrents_move_done_data dir t fs w :
  torrents (move_done_data dir t fs w) = torrents w.
Proof.
  unfold move_done_data. destruct (GetLabel t w); [|done].
  case_decide; [done|]. by repeat (match goal with |- context [if ?b then _ else _] => destruct b end).
Qed.

Lemma Update_BytesCompleted e p : BytesCompleted (Update e p) = Completed e.
Proof. done. Qed.

Lemma tick_stages ratio dir hash e fs w p t :
  held e = true → torrents w !! hash = Some t →
  tick ratio dir hash e fs w p =
    let r := stages ratio dir hash (Update e p) fs
               (t, emit (BroadcastProgress (Update e p)) w) in
    (SaveAndBroadcast r.1 r.2, Update e p,
     if decide (status r.1 = StatusDone) then Break else Continue).
Proof.
  intros Hheld Hinfo. unfold tick. rewrite Hheld. cbn [negb].
  unfold GetTorrentInfo. cbn [emit torrents]. rewrite Hinfo.
  by destruct (stages _ _ _ _ _ _).
Qed.

Lemma saved_status_SaveAndBroadcast t t' w :
  Hash t' = Hash t → saved_status t (SaveAndBroadcast t' w) = Some (status t').
Proof.
  intros HH. unfold saved_status, SaveAndBroadcast. cbn [emit torrents].
  by rewrite HH, lookup_insert_eq.
Qed.

(** The stages for a record that is neither queued, active, done nor
    seeding: nothing happens. *)
Lemma stages_idle ratio dir hash p fs t w :
  status t = StatusStopped ∨ status t = StatusPending →
  stages ratio dir hash p fs (t, w) = (t, w).
Proof.
  intros Hst. unfold stages, stage_queued, stage_active, stage_done, stage_seeding.
  destruct t as [? ? ? ? st ? ?]; simpl in *.
  destruct Hst; subst st; done.
Qed.

(** The stages for a record that is done when line 136 is reached. *)
Lemma stages_done ratio dir hash e p fs t w :
  reaches_done t e →
  ∃ w1, sched w1 = sched w ∧ torrents w1 = torrents w ∧
    stages ratio dir hash (Update e p) fs (t, w) =
      (if seed_gate ratio (Update e p)
       then set_status StatusSeeding t else set_status StatusDone t,
       with_sched (Queue.Done hash (sched w)) w1).
Proof.
  intros Hd. unfold stages.
  assert (Hgate : ∀ t0 w0, status t0 = StatusDone →
    stage_seeding ratio (Update e p)
      (stage_done ratio dir hash (Update e p) fs (t0, w0)) =
      (if seed_gate ratio (Update e p)
       then set_status StatusSeeding t0 else set_status StatusDone t0,
       with_sched (Queue.Done hash (sched w0)) (move_done_data dir t0 fs w0))).
  { intros t0 w0 Ht0. unfold stage_done, stage_seeding. rewrite decide_True by done.
    rewrite sched_move_done_data.
    destruct (seed_gate ratio (Update e p)) eqn:Hg.
    - unfold seed_gate in Hg. apply andb_prop in Hg as [_ Hg].
      apply negb_true_iff in Hg. rewrite decide_True by done. by rewrite Hg.
    - rewrite decide_False by (rewrite Ht0; done).
      destruct t0; simpl in *; by subst. }
  destruct t as [h n ta tb st m l]; unfold reaches_done in Hd; simpl in Hd.
  destruct Hd as [->|[[->| ->] Hbytes]].
  - unfold stage_queued, stage_active. cbn [status]. rewrite !decide_False by done.
    rewrite Hgate by done. eexists. split; [|split; [|reflexivity]].
    + apply sched_move_done_data.
    + apply torrents_move_done_data.
  - unfold stage_queued, stage_active. cbn [status].
    rewrite decide_False by done. rewrite decide_True by done.
    cbn [TotalBytes]. rewrite Update_BytesCompleted.
    destruct (Z.leb_spec tb (Completed e)); [|lia].
    rewrite Hgate by done. eexists. split; [|split; [|reflexivity]].
    + apply sched_move_done_data.
    + apply torrents_move_done_data.
  - unfold stage_queued, stage_active.
    cbn [status set_status Hash Name TimeAdded TotalBytes Magnet LabelID].
    rewrite decide_True by done.
    cbn [status set_status Hash Name TimeAdded TotalBytes Magnet LabelID].
    rewrite decide_True by done.
    cbn [status set_status Hash Name TimeAdded TotalBytes Magnet LabelID].
    rewrite Update_BytesCompleted.
    destruct (Z.leb_spec tb (Completed e)); [|lia].
    rewrite Hgate by done.
    cbn [status set_status Hash Name TimeAdded TotalBytes Magnet LabelID].
    eexists. split; [|split; [|reflexivity]].
    + by rewrite sched_move_done_data.
    + by rewrite torrents_move_done_data.
Qed.

Lemma stages_seeding ratio dir hash p fs t w :
  status t = StatusSeeding →
  stages ratio dir hash p fs (t, w) =
    (if Qle_bool ratio (Ratio p) then set_status StatusDone t else t, w).
Proof.
  intros Hst. unfold stages, stage_queued, stage_active, stage_done, stage_seeding.
  rewrite !decide_False by (rewrite Hst; done). rewrite decide_True by done.
  by destruct (Qle_bool ratio (Ratio p)).
Qed.

Lemma stages_incomplete ratio dir hash e p fs t w :
  (status t = StatusActive ∨ status t = StatusQueued) → Completed e < TotalBytes t →
  ∃ w1, stages ratio dir hash (Update e p) fs (t, w) = (set_status StatusActive t, w1).
Proof.
  intros Hst Hlt. unfold stages, stage_queued, stage_active, stage_done, stage_seeding.
  destruct t as [h n ta tb st m l]; simpl in Hst, Hlt.
  destruct Hst as [-> | ->]; record_norm.
  - rewrite decide_False by done. record_norm. rewrite decide_True by done.
    rewrite Update_BytesCompleted. destruct (Z.leb_spec tb (Completed e)); [lia|].
    record_norm. rewrite decide_False by done. record_norm.
    rewrite decide_False by done. by eexists.
  - rewrite decide_True by done. record_norm. rewrite decide_True by done.
    rewrite Update_BytesCompleted. destruct (Z.leb_spec tb (Completed e)); [lia|].
    record_norm. rewrite decide_False by done. record_norm.
    rewrite decide_False by done. by eexists.
Qed.

(** ** Stopping *)




(** ** The seed ratio *)

Lemma Update_Ratio_nonneg e p :
  0 ≤ BytesWritten e → 0 ≤ Completed e → (0 <= Ratio (Update e p))%Q.
Proof.
  intros Hw Hc. cbn [Update Ratio].
  destruct (Z.eqb_spec (Completed e) 0) as [|Hne]; [apply Qle_refl|].
  apply Qle_shift_div_l.
  - change 0%Q with (inject_Z 0). rewrite <- Zlt_Qlt. lia.
  - rewrite Qmult_0_l. change 0%Q with (inject_Z 0). rewrite <- Zle_Qle. lia.
Qed.

(** C6: the code at the failing input. With the target at -1, a tick that
    reloads [StatusSeeding] saves [StatusDone] and leaves the loop, since
    any ratio is at least -1 and line 164 has no guard for -1. *)
Theorem C6_seeding_ends_at_unlimited_target :
  let r := tick (-1) "./downloads" "h" (Sample.engine 0 100) Sample.fs
                (Sample.world StatusSeeding) Sample.progress in
  torrents (Sample.world StatusSeeding) !! "h" = Some (Sample.info StatusSeeding)
  ∧ saved_status (Sample.info StatusSeeding) r.1.1 = Some StatusDone
  ∧ r.2 = Break.
Proof. vm_compute. done. Qed.

(** The same for every tick: at target -1 a seeding record is set done. *)
Lemma seeding_ends_at_unlimited_target dir hash e fs w p t :
  held e = true → torrents w !! hash = Some t → status t = StatusSeeding →
  0 ≤ BytesWritten e → 0 ≤ Completed e →
  saved_status t (tick (-1) dir hash e fs w p).1.1 = Some StatusDone
  ∧ (tick (-1) dir hash e fs w p).2 = Break.
Proof.
  intros Hheld Hinfo Hst Hw Hc.
  rewrite (tick_stages _ dir hash e fs w p t Hheld Hinfo).
  rewrite stages_seeding by done.
  assert (Hle : Qle_bool (-1) (Ratio (Update e p)) = true).
  { apply Qle_bool_iff. apply Qle_trans with 0%Q; [done|by apply Update_Ratio_nonneg]. }
  rewrite Hle. cbn [fst snd]. rewrite decide_True by done.
  split; [|done]. by rewrite saved_status_SaveAndBroadcast.
Qed.

(** C7. With the target at 0 and the counters reported by the client
    nonnegative, the ratio computed by [Update] is nonnegative, the gate
    [Ratio < globalRatio] is closed, no tick saves [StatusSeeding], and a
    torrent that is done at line 136 is saved as [StatusDone] and the
    loop is left. *)
Theorem C7_no_seeding_at_target_zero
    (dir hash : string) (e : Engine) (fs : FileSystem)
    (w : World) (p : TorrentProgress) (t : TorrentInfo) :
  held e = true →
  torrents w !! hash = Some t →
  0 ≤ BytesWritten e →
  0 ≤ Completed e →
  let r := tick 0 dir hash e fs w p in
  (0 <= Ratio (Update e p))%Q
  ∧ seed_gate 0 (Update e p) = false
  ∧ saved_status t r.1.1 ≠ Some StatusSeeding
  ∧ (reaches_done t e → saved_status t r.1.1 = Some StatusDone ∧ r.2 = Break).
Proof.
  intros Hheld Hinfo Hw Hc r.
  pose proof (Update_Ratio_nonneg e p Hw Hc) as Hratio.
  assert (Hle : Qle_bool 0 (Ratio (Update e p)) = true) by by apply Qle_bool_iff.
  assert (Hgate : seed_gate 0 (Update e p) = false).
  { unfold seed_gate. rewrite Hle. by rewrite andb_false_r. }
  assert (Hdone : reaches_done t e →
            saved_status t r.1.1 = Some StatusDone ∧ r.2 = Break).
  { intros Hd. unfold r.
    rewrite (tick_stages _ dir hash e fs w p t Hheld Hinfo).
    destruct (stages_done 0 dir hash e p fs t
                (emit (BroadcastProgress (Update e p)) w) Hd) as (w1 & _ & _ & ->).
    rewrite Hgate. cbn [fst snd]. rewrite decide_True by done.
    split; [|done]. by rewrite saved_status_SaveAndBroadcast. }
  split; [done|]. split; [done|]. split; [|done].
  destruct (status t) eqn:Hst.
  - destruct (Z.le_gt_cases (TotalBytes t) (Completed e)) as [Hle'|Hlt].
    + destruct Hdone as [-> _]; [|done]. right. split; [by left|done].
    + unfold r. rewrite (tick_stages _ dir hash e fs w p t Hheld Hinfo).
      destruct (stages_incomplete 0 dir hash e p fs t
                  (emit (BroadcastProgress (Update e p)) w)) as (w1 & ->);
        [by left|lia|].
      cbn [fst snd]. by rewrite saved_status_SaveAndBroadcast.
  - destruct (Z.le_gt_cases (TotalBytes t) (Completed e)) as [Hle'|Hlt].
    + destruct Hdone as [-> _]; [|done]. right. split; [by right|done].
    + unfold r. rewrite (tick_stages _ dir hash e fs w p t Hheld Hinfo).
      destruct (stages_incomplete 0 dir hash e p fs t
                  (emit (BroadcastProgress (Update e p)) w)) as (w1 & ->);
        [by right|lia|].
      cbn [fst snd]. by rewrite saved_status_SaveAndBroadcast.
  - unfold r. rewrite (tick_stages _ dir hash e fs w p t Hheld Hinfo).
    rewrite stages_idle by (by left). cbn [fst snd].
    rewrite saved_status_SaveAndBroadcast by done. by rewrite Hst.
  - unfold r. rewrite (tick_stages _ dir hash e fs w p t Hheld Hinfo).
    rewrite stages_idle by (by right). cbn [fst snd].
    rewrite saved_status_SaveAndBroadcast by done. by rewrite Hst.
  - destruct Hdone as [-> _]; [by left|done].
  - unfold r. rewrite (tick_stages _ dir hash e fs w p t Hheld Hinfo).
    rewrite stages_seeding by done. rewrite Hle. cbn [fst snd].
    by rewrite saved_status_SaveAndBroadcast.
Qed.

Lemma C7_witness :
  saved_status (Sample.info StatusActive)
    (tick 0 "./downloads" "h" (Sample.engine 0 100) Sample.fs
          (Sample.world StatusActive) Sample.progress).1.1 = Some StatusDone.
Proof.
  destruct (C7_no_seeding_at_target_zero "./downloads" "h" (Sample.engine 0 100)
              Sample.fs (Sample.world StatusActive) Sample.progress
              (Sample.info StatusActive)) as (_ & _ & _ & H).
  - reflexivity.
  - reflexivity.
  - vm_compute. discriminate.
  - vm_compute. discriminate.
  - apply H. right. split; [by left|]. vm_compute. discriminate.
Defined.

(** ** Releasing the slot *)

Lemma sched_close hash held' w p :
  sched (close hash held' w p).1 = Done hash (sched w).
Proof.
  unfold close. destruct held'; case_decide; done.
Qed.

(** C10, as stated, fails: the [queue.Done] of the exit path does have an
    effect when the hash has been delivered again after the tick that
    released it.  With two backlog entries of ["h"], the done tick of the
    first worker releases the slot, the poll admits ["h"] again, and the
    exit of the first worker then takes the hash out of [activeHashes]
    and lowers the counter. *)
Lemma C10_counterexample :
  ¬ (∀ (ratio : Q) (dir hash : string) (e : Engine) (fs : FileSystem)
       (w : World) (p : TorrentProgress) (t : TorrentInfo) (k : Z) (ops : list op),
       held e = true → torrents w !! hash = Some t → reaches_done t e →
       let s := run k ops (sched (tick ratio dir hash e fs w p).1.1) in
       Done hash s = s).
Proof.
  intros H.
  specialize (H 1%Q "./downloads" "h" (Sample.engine 10 100) Sample.fs
    (mkWorld {["h" := Sample.info StatusActive]} ∅
             (Queue.run 1 [OpAdd "h"; OpAdd "h"; OpTick] Queue.init) {["h"]} [])
    Sample.progress (Sample.info StatusActive) 1 [OpTick]
    eq_refl eq_refl).
  cbn zeta in H.
  assert (Hd : reaches_done (Sample.info StatusActive) (Sample.engine 10 100)).
  { right. split; [by left|]. vm_compute. discriminate. }
  specialize (H Hd). apply (f_equal numActive) in H.
  vm_compute in H. discriminate H.
Qed.

(** C10, amended. On the tick in which the torrent is done at line 136,
    the worker calls [queue.Done hash], whether the status is then saved
    as [StatusDone] and the loop left, or goes on to [StatusSeeding] and
    the loop continues.  After that tick [hash] is not in [activeHashes];
    if it held a slot, the counter is one lower, so that the poll of
    [Run] admits the first backlog entry while the torrent seeds.  The
    [queue.Done hash] of the exit path then changes nothing when the
    worker leaves at once, and nothing later as long as [hash] has not
    been delivered by [Next] again in between. *)
Theorem C10_slot_released_on_done_tick
    (ratio : Q) (dir hash : string) (e : Engine) (fs : FileSystem)
    (w : World) (p : TorrentProgress) (t : TorrentInfo) (k : Z) :
  held e = true →
  torrents w !! hash = Some t →
  reaches_done t e →
  let r := tick ratio dir hash e fs w p in
  let w' := r.1.1 in
  sched w' = Done hash (sched w)
  ∧ (hash ∉ activeHashes (sched w'))
  ∧ ((saved_status t w' = Some StatusSeeding ∧ r.2 = Continue)
     ∨ (saved_status t w' = Some StatusDone ∧ r.2 = Break))
  ∧ (hash ∈ activeHashes (sched w) → 0 < numActive (sched w) ≤ k → k < 2 ^ 63 →
       numActive (sched w') = numActive (sched w) - 1
       ∧ ∀ next, Get_FirstKey (queued (sched w)) = Some next →
           delivered (Run_poll k (sched w')) = delivered (sched w) ++ [(Polled, next)])
  ∧ (∀ held' p', sched (close hash held' w' p').1 = sched w')
  ∧ (∀ ops later,
       delivered (run k ops (sched w')) = delivered (sched w') ++ later →
       hash ∉ snd <$> later →
       Done hash (run k ops (sched w')) = run k ops (sched w')).
Proof.
  intros Hheld Hinfo Hd r w'.
  assert (Hr : ∃ w1, sched w1 = sched w ∧
            r = (SaveAndBroadcast
                   (if seed_gate ratio (Update e p)
                    then set_status StatusSeeding t else set_status StatusDone t)
                   (with_sched (Done hash (sched w)) w1),
                 Update e p,
                 if seed_gate ratio (Update e p) then Continue else Break)).
  { unfold r. rewrite (tick_stages ratio dir hash e fs w p t Hheld Hinfo).
    destruct (stages_done ratio dir hash e p fs t
                (emit (BroadcastProgress (Update e p)) w) Hd) as (w1 & Hs & _ & ->).
    exists w1. split; [done|]. cbn [fst snd].
    by destruct (seed_gate ratio (Update e p)). }
  destruct Hr as (w1 & Hs1 & Hr).
  assert (Hsched : sched w' = Done hash (sched w)) by (unfold w'; by rewrite Hr).
  split; [done|]. split; [rewrite Hsched; apply Done_removes|].
  split; [|split; [|split]].
  - unfold w'. rewrite Hr. destruct (seed_gate ratio (Update e p)); cbn [fst snd].
    + left. by rewrite saved_status_SaveAndBroadcast.
    + right. by rewrite saved_status_SaveAndBroadcast.
  - intros Hin Hn Hk.
    rewrite Hsched. unfold Done. rewrite decide_True by done.
    cbn [activeHashes_Delete Run_select numActive queued delivered].
    rewrite int_wrap_id by lia.
    destruct (Z.ltb_spec (numActive (sched w) - 1) 0); [lia|].
    split; [done|]. intros next Hnext. unfold Run_poll.
    cbn [activeHashes_Delete numActive queued delivered].
    destruct (Z.ltb_spec (numActive (sched w) - 1) k); [|lia].
    by rewrite Hnext.
  - intros held' p'. rewrite sched_close, Hsched. apply Done_idempotent.
  - intros ops later Hdel Hlater.
    eapply Done_after_release; [|exact Hdel|exact Hlater].
    rewrite Hsched. apply Done_removes.
Qed.

Lemma C10_witness :
  let r := tick (3 # 2) "./downloads" "h" (Sample.engine 10 100) Sample.fs
                (Sample.world StatusActive) Sample.progress in
  ("h" ∉ activeHashes (sched r.1.1))
  ∧ delivered (Run_poll 1 (sched r.1.1)) = [(Polled, "h"); (Polled, "g")]
  ∧ Done "h" (sched r.1.1) = sched r.1.1.
Proof.
  intros r.
  destruct (C10_slot_released_on_done_tick (3 # 2) "./downloads" "h"
              (Sample.engine 10 100) Sample.fs (Sample.world StatusActive)
              Sample.progress (Sample.info StatusActive) 1)
    as (_ & Hout & _ & Hslot & _ & Hlater).
  - reflexivity.
  - reflexivity.
  - right. split; [by left|]. vm_compute. discriminate.
  - split; [exact Hout|]. split.
    + destruct Hslot as [_ Hpoll].
      * vm_compute. reflexivity.
      * vm_compute. split; [reflexivity|discriminate].
      * vm_compute. reflexivity.
      * apply (Hpoll "g"). vm_compute. reflexivity.
    + apply (Hlater [] []).
      * cbn [run foldl]. by rewrite app_nil_r.
      * cbn. apply not_elem_of_nil.
Defined.

End WorkerFacts.

(* ===================================================================== *)
(** * More about the database layer                                      *)
(* ===================================================================== *)

Module DatabaseAPIFacts.
Import Database DatabaseAPI DatabaseFacts.

Lemma btoi_snoc l x : btoi (l ++ [x]) = (btoi l * 256 + x)%N.
Proof. unfold btoi. by rewrite foldl_app. Qed.

Lemma btoi_be n v : btoi (be n v) = (v mod 256 ^ N.of_nat n)%N.
Proof.
  revert v; induction n as [|n IH]; intros v.
  - cbn. by rewrite N.mod_1_r.
  - cbn [be]. rewrite btoi_snoc, IH.
    rewrite Nat2N.inj_succ, N.pow_succ_r'.
    rewrite N.Div0.mod_mul_r.
    generalize ((v / 256) mod 256 ^ N.of_nat n)%N (v mod 256)%N. intros; lia.
Qed.

Lemma be_bytes n v : Forall (λ x, x < 256)%N (be n v).
Proof.
  revert v; induction n as [|n IH]; intros v; cbn [be]; [constructor|].
  apply Forall_app. split; [apply IH|].
  repeat constructor. apply N.mod_lt. lia.
Qed.

Lemma be_mod n v : be n (v mod 256 ^ N.of_nat n) = be n v.
Proof.
  revert v; induction n as [|n IH]; intros v; [done|].
  cbn [be]. rewrite Nat2N.inj_succ, N.pow_succ_r'.
  rewrite N.Div0.mod_mul_r.
  assert (Hr : (v mod 256 < 256)%N) by (apply N.mod_lt; lia).
  set (q := ((v / 256) mod 256 ^ N.of_nat n)%N).
  assert (Hq : ((v mod 256 + 256 * q) / 256 = q)%N).
  { symmetry. apply (N.div_unique _ 256 q (v mod 256)); [done|lia]. }
  assert (Hm : ((v mod 256 + 256 * q) mod 256 = v mod 256)%N).
  { symmetry. apply (N.mod_unique _ 256 q (v mod 256)); [done|lia]. }
  rewrite Hq, Hm. unfold q. by rewrite IH.
Qed.

(** X1. [itob] yields eight bytes, decoding them gives the number back
    modulo 2^64, and two numbers have the same key exactly when they are
    equal modulo 2^64. *)
Theorem itob_roundtrip (v : N) :
  length (itob v) = 8%nat
  ∧ Forall (λ x, x < 256)%N (itob v)
  ∧ btoi (itob v) = (v mod 2 ^ 64)%N
  ∧ (∀ w, itob v = itob w ↔ (v mod 2 ^ 64 = w mod 2 ^ 64)%N).
Proof.
  rewrite itob_be. split; [apply be_length|]. split; [apply be_bytes|].
  split; [apply btoi_be|].
  intros w. rewrite itob_be. split.
  - intros Heq. change (2 ^ 64)%N with (256 ^ N.of_nat 8)%N.
    by rewrite <- !btoi_be, Heq.
  - intros Heq. change (2 ^ 64)%N with (256 ^ N.of_nat 8)%N in Heq.
    by rewrite <- (be_mod 8 v), Heq, be_mod.
Qed.

(** ** Looking up what was put *)

Lemma lookup_key_insert_same k v l : lookup_key k (insert_sorted k v l) = Some v.
Proof.
  induction l as [|[k' v'] l IH]; cbn [insert_sorted lookup_key].
  - by rewrite decide_True by apply bytes_compare_refl.
  - destruct (bytes_compare k k') eqn:Hc; cbn [lookup_key fst].
    + by rewrite decide_True by apply bytes_compare_refl.
    + by rewrite decide_True by apply bytes_compare_refl.
    + rewrite decide_False; [done|].
      rewrite bytes_compare_antisym, Hc. done.
Qed.

Lemma lookup_key_insert_other k k0 v l :
  k0 ≠ k → lookup_key k0 (insert_sorted k v l) = lookup_key k0 l.
Proof.
  intros Hne.
  assert (Hk : bytes_compare k k0 ≠ Eq) by (by intros ->%bytes_compare_eq).
  induction l as [|[k' v'] l IH]; cbn [insert_sorted lookup_key].
  - by rewrite decide_False.
  - destruct (bytes_compare k k') eqn:Hc; cbn [lookup_key fst].
    + apply bytes_compare_eq in Hc as <-.
      by rewrite !decide_False.
    + by rewrite (decide_False (P := bytes_compare k k0 = Eq)).
    + by rewrite IH.
Qed.

Lemma lookup_key_is_Some k l : is_Some (lookup_key k l) ↔ k ∈ fst <$> l.
Proof.
  induction l as [|[k' v'] l IH]; cbn [lookup_key].
  - split; [by intros [? ?]|by intros ?%elem_of_nil].
  - rewrite fmap_cons, elem_of_cons. cbn [fst]. case_decide as Hc.
    + apply bytes_compare_eq in Hc as ->. split; [by left|by eexists].
    + rewrite IH. split; [by right|]. intros [->|?]; [|done].
      by rewrite bytes_compare_refl in Hc.
Qed.

Lemma lookup_key_delete_same k l :
  lookup_key k (filter (λ e, bytes_compare (fst e) k ≠ Eq) l) = None.
Proof.
  induction l as [|[k' v'] l IH]; [done|].
  rewrite filter_cons. cbn [fst]. case_decide as Hc; [|done].
  cbn [lookup_key]. by rewrite decide_False.
Qed.

Lemma lookup_key_delete_other k k0 l :
  k0 ≠ k →
  lookup_key k0 (filter (λ e, bytes_compare (fst e) k ≠ Eq) l) = lookup_key k0 l.
Proof.
  intros Hne. induction l as [|[k' v'] l IH]; [done|].
  rewrite filter_cons. cbn [fst lookup_key]. case_decide as Hc.
  - cbn [lookup_key]. by rewrite IH.
  - apply bytes_compare_eq in Hc as ->.
    rewrite decide_False; [done|]. by intros ->%bytes_compare_eq.
Qed.

Lemma bolt_Put_ok k v b :
  k ≠ [] → (N.of_nat (length k) ≤ MaxKeySize)%N →
  (N.of_nat (String.length v) ≤ MaxValueSize)%N →
  bolt_Put k v b = Ok (bucket_Put k v b).
Proof.
  intros Hk Hlen Hval. unfold bolt_Put.
  rewrite decide_False by done. rewrite decide_False by lia.
  by rewrite decide_False by lia.
Qed.

(** X2. A value put under a literal key that BoltDB accepts is what [Get]
    returns for that key afterwards; every other key reads as before,
    and the sequence counter is not touched. *)
Theorem Put_Get_roundtrip (k : bytes) (v : string) (b : Bucket) :
  k ≠ [] →
  (N.of_nat (length k) ≤ MaxKeySize)%N →
  (N.of_nat (String.length v) ≤ MaxValueSize)%N →
  ∃ b', Put (PutBytes (Some k)) (Some v) b = Ok b'
      ∧ Get (KeyBytes (Some k)) b' = Ok v
      ∧ (∀ k0, k0 ≠ k → Get (KeyBytes (Some k0)) b' = Get (KeyBytes (Some k0)) b)
      ∧ sequence b' = sequence b.
Proof.
  intros Hk Hlen Hval. exists (bucket_Put k v b).
  split; [by apply bolt_Put_ok|]. split; [|split; [|done]].
  - unfold Get, assertGetByKey, bucket_Get, bucket_Put. cbn [default from_option id entries].
    by rewrite lookup_key_insert_same.
  - intros k0 Hne. unfold Get, assertGetByKey, bucket_Get, bucket_Put.
    cbn [default from_option id entries]. by rewrite lookup_key_insert_other.
Qed.

Lemma Put_Get_roundtrip_witness :
  ∃ b', Put (PutBytes (Some [104; 49]%N)) (Some "info") (mkBucket 0 []) = Ok b'
      ∧ Get (KeyBytes (Some [104; 49]%N)) b' = Ok "info".
Proof.
  destruct (Put_Get_roundtrip [104; 49]%N "info" (mkBucket 0 []))
    as (b' & H1 & H2 & _).
  - discriminate.
  - vm_compute. discriminate.
  - vm_compute. discriminate.
  - exists b'. split; [exact H1|exact H2].
Defined.

(** X3. [Get] succeeds exactly when its key selects an entry: an [int]
    key must be [GetFirstKey] or [GetLastKey] and the bucket non-empty, a
    literal key must be present, the nil key never does.  [Delete]
    succeeds in the same cases, and in all others both fail: with
    [ErrKeyNotValid] for the nil key, with [ErrNoSuchKey] otherwise. *)
Theorem Get_Delete_selects (key : Key) (b : Bucket) :
  let selects :=
    match key with
    | KeyNil => False
    | KeyInt n => (n = GetFirstKey ∨ n = GetLastKey) ∧ entries b ≠ []
    | KeyBytes k => default [] k ∈ keys b
    end in
  ((∃ v, Get key b = Ok v) ↔ selects)
  ∧ ((∃ b', Delete key b = Ok b') ↔ selects)
  ∧ (¬ selects →
       let e := match key with KeyNil => ErrKeyNotValid | _ => ErrNoSuchKey end in
       Get key b = Err e ∧ Delete key b = Err e).
Proof.
  intros selects.
  assert (Hsel : (∃ kv, assertGetByKey key b = Ok kv) ↔ selects).
  { unfold selects, assertGetByKey. destruct key as [|n|k].
    - split; [by intros [? ?]|done].
    - unfold GetFirstKey, GetLastKey, cursor_First, cursor_Last.
      destruct (Z.eqb_spec n 2) as [->|Hn2]; [|destruct (Z.eqb_spec n 3) as [->|Hn3]].
      + destruct (entries b) as [|[k0 v0] l]; cbn [head].
        * split; [by intros [? ?]|by intros [_ ?]].
        * split; [intros _; split; [by left|done]|by eexists].
      + destruct (entries b) as [|e0 l] using rev_ind.
        * split; [by intros [? ?]|by intros [_ ?]].
        * rewrite last_snoc. destruct e0.
          split; [intros _; split; [by right|intros [_ [=]]%app_eq_nil]|by eexists].
      + split; [by intros [? ?]|]. intros [[?|?] _]; lia.
    - unfold bucket_Get, keys. rewrite <- lookup_key_is_Some.
      destruct (lookup_key (default [] k) (entries b)).
      + split; [by eexists|by eexists].
      + split; [by intros [? ?]|by intros [? ?]]. }
  assert (Herr : ¬ selects →
    assertGetByKey key b =
      Err (match key with KeyNil => ErrKeyNotValid | _ => ErrNoSuchKey end)).
  { intros Hns. destruct (assertGetByKey key b) as [kv|e] eqn:Ha.
    - destruct Hns. apply Hsel. by eexists.
    - unfold assertGetByKey in Ha. destruct key as [|n|k]; [done|..].
      + by destruct (if n =? GetFirstKey then _ else _) as [[? ?]|]; simplify_eq.
      + by destruct (bucket_Get _ b); simplify_eq. }
  split; [|split].
  - rewrite <- Hsel. unfold Get. destruct (assertGetByKey key b) as [[k v]|e].
    + split; by eexists.
    + split; [by intros [? ?]|by intros [? ?]].
  - rewrite <- Hsel. unfold Delete. destruct (assertGetByKey key b) as [[k v]|e].
    + split; by eexists.
    + split; [by intros [? ?]|by intros [? ?]].
  - intros Hns e. unfold Get, Delete. by rewrite (Herr Hns).
Qed.

Lemma Get_Delete_selects_witness :
  Get (KeyInt AutoIncrement) (mkBucket 1 [(itob 1, "a")]) = Err ErrNoSuchKey.
Proof.
  destruct (Get_Delete_selects (KeyInt AutoIncrement) (mkBucket 1 [(itob 1, "a")]))
    as (_ & _ & H).
  apply H. intros [[?|?] _]; discriminate.
Defined.

(** X4. Deleting a literal key that is present succeeds; afterwards the
    key is gone and [Get] fails for it with [ErrNoSuchKey], while every
    other key reads as before. *)
Theorem Delete_Get (k : bytes) (b : Bucket) :
  k ∈ keys b →
  ∃ b', Delete (KeyBytes (Some k)) b = Ok b'
      ∧ Get (KeyBytes (Some k)) b' = Err ErrNoSuchKey
      ∧ (k ∉ keys b')
      ∧ (∀ k0, k0 ≠ k → Get (KeyBytes (Some k0)) b' = Get (KeyBytes (Some k0)) b)
      ∧ sequence b' = sequence b.
Proof.
  intros Hin. exists (bucket_Delete k b).
  apply lookup_key_is_Some in Hin as [v Hv].
  split; [|split; [|split; [|split; [|done]]]].
  - unfold Delete, assertGetByKey, bucket_Get. cbn [default from_option id]. by rewrite Hv.
  - unfold Get, assertGetByKey, bucket_Get, bucket_Delete. cbn [default from_option id entries].
    by rewrite lookup_key_delete_same.
  - unfold keys. rewrite <- lookup_key_is_Some. unfold bucket_Delete. cbn [entries].
    rewrite lookup_key_delete_same. by intros [? ?].
  - intros k0 Hne. unfold Get, assertGetByKey, bucket_Get, bucket_Delete.
    cbn [default from_option id entries]. by rewrite lookup_key_delete_other.
Qed.

Lemma Delete_Get_witness :
  ∃ b', Delete (KeyBytes (Some (itob 1))) (mkBucket 2 [(itob 1, "a"); (itob 2, "b")]) = Ok b'
      ∧ Get (KeyBytes (Some (itob 1))) b' = Err ErrNoSuchKey.
Proof.
  destruct (Delete_Get (itob 1) (mkBucket 2 [(itob 1, "a"); (itob 2, "b")]))
    as (b' & H1 & H2 & _).
  - vm_compute. left.
  - exists b'. split; [exact H1|exact H2].
Defined.

(** ** The order of a bucket *)

Lemma bytes_compare_trans a b c :
  bytes_compare a b = Lt → bytes_compare b c = Lt → bytes_compare a c = Lt.
Proof.
  revert b c; induction a as [|x a IH]; intros [|y b] [|z c]; simpl; try done.
  destruct (N.compare_spec x y) as [->|Hxy|Hxy]; try done.
  - destruct (N.compare_spec y z) as [->|Hyz|Hyz]; try done. apply IH.
  - intros _. destruct (N.compare_spec y z) as [->|Hyz|Hyz]; try done.
    + intros _. destruct (N.compare_spec x z); [lia|done|lia].
    + intros _. destruct (N.compare_spec x z); [lia|done|lia].
Qed.

Lemma elem_of_insert_sorted k v l e :
  e ∈ insert_sorted k v l → e = (k, v) ∨ e ∈ l.
Proof.
  induction l as [|[k' v'] l IH]; cbn [insert_sorted].
  - intros ->%list_elem_of_singleton. by left.
  - destruct (bytes_compare k k'); rewrite !elem_of_cons; naive_solver.
Qed.

Lemma insert_sorted_sorted k v l :
  StronglySorted entry_lt l → StronglySorted entry_lt (insert_sorted k v l).
Proof.
  induction 1 as [|[k' v'] l Hs IH Hall]; cbn [insert_sorted]; [repeat constructor|].
  destruct (bytes_compare k k') eqn:Hc.
  - apply bytes_compare_eq in Hc as ->. by constructor.
  - constructor; [by constructor|]. constructor; [exact Hc|].
    eapply Forall_impl; [exact Hall|]. intros e He.
    unfold entry_lt, bytes_lt in *. cbn [fst] in *. by eapply bytes_compare_trans.
  - constructor; [done|]. apply Forall_forall. intros e He.
    apply elem_of_insert_sorted in He as [->|He].
    + unfold entry_lt, bytes_lt. cbn [fst]. by rewrite bytes_compare_antisym, Hc.
    + by eapply Forall_forall in Hall.
Qed.

Lemma sorted_NoDup_keys l : StronglySorted entry_lt l → NoDup (fst <$> l).
Proof.
  induction 1 as [|e l Hs IH Hall]; [constructor|].
  rewrite fmap_cons. apply NoDup_cons. split; [|done].
  intros (e' & Heq & He')%list_elem_of_fmap.
  eapply Forall_forall in Hall; [|exact He'].
  unfold entry_lt, bytes_lt in Hall. rewrite Heq, bytes_compare_refl in Hall. done.
Qed.

(** X5. [Put] and [Delete] keep the keys of a bucket strictly increasing,
    whatever the key (an auto-increment key that has wrapped included);
    so no key occurs twice. *)
Theorem sorted_kept (b : Bucket) :
  sorted b →
  (∀ key val b', Put key val b = Ok b' → sorted b')
  ∧ (∀ key b', Delete key b = Ok b' → sorted b')
  ∧ NoDup (keys b).
Proof.
  intros Hs. split; [|split].
  - intros key val b' HP. unfold Put in HP.
    destruct val as [buf|]; [|done].
    assert (Hbolt : ∀ k b0, sorted b0 → bolt_Put k buf b0 = Ok b' → sorted b').
    { intros k b0 Hs0. unfold bolt_Put. repeat case_decide; try done.
      intros [= <-]. by apply insert_sorted_sorted. }
    destruct key as [|[k|]]; [|by eapply Hbolt|done].
    cbn [NextSequence] in HP. by eapply Hbolt in HP.
  - intros key b' HD. unfold Delete in HD.
    destruct (assertGetByKey key b) as [[k v]|]; [|done].
    injection HD as <-. by apply StronglySorted_filter.
  - by apply sorted_NoDup_keys.
Qed.

Lemma sorted_kept_witness :
  sorted (bucket_Put (itob 1) "b" (mkBucket 2 [(itob 1, "a"); (itob 2, "c")])).
Proof.
  destruct (sorted_kept (mkBucket 2 [(itob 1, "a"); (itob 2, "c")])) as (H & _).
  - repeat constructor.
  - apply (H (PutBytes (Some (itob 1))) (Some "b")). reflexivity.
Defined.

Lemma sorted_last l e :
  StronglySorted entry_lt l → last l = Some e →
  ∀ e', e' ∈ l → e' = e ∨ entry_lt e' e.
Proof.
  induction 1 as [|e0 l Hs IH Hall]; [done|].
  intros Hlast e' He'. destruct l as [|e1 l].
  - injection Hlast as <-. apply list_elem_of_singleton in He'. by left.
  - cbn [last] in Hlast. change (last (e1 :: l) = Some e) in Hlast.
    apply elem_of_cons in He' as [->|He']; [|by apply IH].
    right. eapply Forall_forall in Hall; [exact Hall|].
    by apply last_Some_elem_of.
Qed.

(** X6. In a bucket with strictly increasing keys, [GetFirstKey] reads
    the entry with the least key and [GetLastKey] the one with the
    greatest; [All] lists all values in key order, beginning with the
    first and ending with the last, and is [nil] exactly for the empty
    bucket. *)
Theorem First_Last_All (b : Bucket) :
  sorted b →
  (∀ v, Get (KeyInt GetFirstKey) b = Ok v →
     head (values b) = Some v
     ∧ ∃ k, (k, v) ∈ entries b ∧ ∀ e, e ∈ entries b → e = (k, v) ∨ bytes_lt k e.1)
  ∧ (∀ v, Get (KeyInt GetLastKey) b = Ok v →
     last (values b) = Some v
     ∧ ∃ k, (k, v) ∈ entries b ∧ ∀ e, e ∈ entries b → e = (k, v) ∨ bytes_lt e.1 k)
  ∧ (All b = None ↔ entries b = [])
  ∧ (∀ all, All b = Some all → all = values b ∧ length all = length (entries b)).
Proof.
  intros Hs. unfold sorted in Hs. split; [|split; [|split]].
  - intros v. unfold Get, assertGetByKey, cursor_First, values. cbn.
    destruct (entries b) as [|[k0 v0] l] eqn:He; [done|]. cbn.
    intros [= ->]. split; [done|]. exists k0. split; [left|].
    intros e [->|Hin]%elem_of_cons; [by left|right].
    apply StronglySorted_inv in Hs as [_ Hall].
    by eapply Forall_forall in Hall.
  - intros v. unfold Get, assertGetByKey, cursor_Last, values. cbn.
    destruct (last (entries b)) as [[k0 v0]|] eqn:Hl; [|done].
    intros [= ->]. split; [by rewrite fmap_last, Hl|].
    exists k0. split; [by apply last_Some_elem_of|].
    intros e He. by apply (sorted_last _ _ Hs Hl).
  - unfold All, values. destruct (entries b); [done|]. split; done.
  - intros all. unfold All, values. destruct (entries b) as [|e l]; [done|].
    intros [= <-]. split; [done|]. cbn. f_equal. apply length_fmap.
Qed.

Lemma First_Last_All_witness :
  last (values (mkBucket 2 [(itob 1, "a"); (itob 2, "c")])) = Some "c".
Proof.
  destruct (First_Last_All (mkBucket 2 [(itob 1, "a"); (itob 2, "c")]))
    as (_ & H & _).
  - repeat constructor.
  - apply (H "c"). reflexivity.
Defined.

(** X7. On a bucket filled through [AutoIncrement] whose counter has
    room, [Put] with [AutoIncrement] stores the value under [itob] of the
    next sequence number, which becomes the last key: [GetLastKey] reads
    the value just put, [All] is the former list with the value at its
    end, and the shape of the bucket is kept. *)
Theorem Put_AutoIncrement_last (val : string) (b : Bucket) :
  backlog_ok b →
  (sequence b + 1 < 2 ^ 64)%N →
  (N.of_nat (String.length val) ≤ MaxValueSize)%N →
  let b' := Put_AutoIncrement val b in
  Put PutAutoIncrement (Some val) b = Ok b'
  ∧ sequence b' = (sequence b + 1)%N
  ∧ Get (KeyInt GetLastKey) b' = Ok val
  ∧ Get (KeyBytes (Some (itob (sequence b + 1)))) b' = Ok val
  ∧ All b' = Some (values b ++ [val])
  ∧ backlog_ok b'.
Proof.
  intros Hok Hroom Hval b'.
  assert (Hb' : b' = mkBucket (sequence b + 1)
                       (entries b ++ [(itob (sequence b + 1), val)]))
    by (by apply Put_AutoIncrement_entries).
  split; [|split; [|split; [|split; [|split]]]].
  - unfold Put, b', Put_AutoIncrement. cbn [NextSequence].
    apply bolt_Put_ok; [done|vm_compute; discriminate|done].
  - by rewrite Hb'.
  - rewrite Hb'. unfold Get, assertGetByKey, cursor_Last. cbn.
    by rewrite last_snoc.
  - unfold b', Put_AutoIncrement, Get, assertGetByKey, bucket_Get, bucket_Put.
    cbn [NextSequence default from_option id entries]. unfold uint64_wrap.
    rewrite N.mod_small by done. by rewrite lookup_key_insert_same.
  - rewrite Hb'. unfold All, values. cbn [entries]. rewrite fmap_app.
    by destruct (snd <$> entries b).
  - by apply Put_AutoIncrement_ok.
Qed.

Lemma Put_AutoIncrement_last_witness :
  Get (KeyInt GetLastKey) (Put_AutoIncrement "b" (mkBucket 1 [(itob 1, "a")])) = Ok "b".
Proof.
  destruct (Put_AutoIncrement_last "b" (mkBucket 1 [(itob 1, "a")])) as (_ & _ & H & _).
  - split; [vm_compute; reflexivity|split; repeat constructor].
    exists 1%N. split; [done|]. vm_compute. discriminate.
  - vm_compute. reflexivity.
  - vm_compute. discriminate.
  - exact H.
Defined.

End DatabaseAPIFacts.

(* ===================================================================== *)
(** * More about the admission scheduler                                 *)
(* ===================================================================== *)

Module QueueMoreFacts.
Import Database Queue DatabaseFacts QueueFacts.

Lemma values_remove_matching hash b :
  values (remove_matching hash b) = filter (λ h, h ≠ hash) (values b).
Proof.
  unfold values, remove_matching. cbn [entries].
  induction (entries b) as [|[k v] l IH]; [done|].
  rewrite filter_cons, fmap_cons. cbn [snd].
  rewrite (filter_cons (λ h, h ≠ hash)).
  case_decide; [by rewrite fmap_cons, IH|done].
Qed.



End QueueMoreFacts.

(* ===================================================================== *)
(** * Facts about the worker as a whole and about the handlers           *)
(* ===================================================================== *)

Module ManageFacts.
Import Database Queue Worker Manage DatabaseFacts QueueFacts WorkerFacts.

Lemma labels_move_done_data dir t fs w : labels (move_done_data dir t fs w) = labels w.
Proof.
  unfold move_done_data. destruct (GetLabel t w); [|done].
  case_decide; [done|]. by repeat (match goal with |- context [if ?b then _ else _] => destruct b end).
Qed.

Lemma managed_move_done_data dir t fs w :
  managedTorrents (move_done_data dir t fs w) = managedTorrents w.
Proof.
  unfold move_done_data. destruct (GetLabel t w); [|done].
  case_decide; [done|]. by repeat (match goal with |- context [if ?b then _ else _] => destruct b end).
Qed.

(** What the four stages do: only the status of the record changes, along
    one of the transitions; of the world, only the scheduler and the
    trail of effects change, and the scheduler only by [Done hash]. *)
Lemma stages_frame ratio dir hash p fs t w :
  let r := stages ratio dir hash p fs (t, w) in
  r.1 = set_status (status r.1) t
  ∧ transition (status t) (status r.1)
  ∧ torrents r.2 = torrents w
  ∧ labels r.2 = labels w
  ∧ managedTorrents r.2 = managedTorrents w
  ∧ (status t = StatusDone
     ∨ ((status t = StatusActive ∨ status t = StatusQueued)
        ∧ TotalBytes t ≤ BytesCompleted p) →
     sched r.2 = Done hash (sched w))
  ∧ (¬ (status t = StatusDone
        ∨ ((status t = StatusActive ∨ status t = StatusQueued)
           ∧ TotalBytes t ≤ BytesCompleted p)) →
     sched r.2 = sched w).
Proof.
  unfold stages, stage_queued, stage_active, stage_done, stage_seeding.
  destruct t as [h n ta tb st m l].
  destruct (tb <=? BytesCompleted p) eqn:Hle;
  [apply Z.leb_le in Hle as Hle'|apply Z.leb_gt in Hle as Hle'];
  destruct (seed_gate ratio p);
  destruct (Qle_bool ratio (Ratio p));
  destruct st; record_norm.
  all: repeat first
    [ rewrite decide_True by done
    | rewrite decide_False by done
    | rewrite Hle
    | progress record_norm ].
  all: cbn [with_sched torrents labels managedTorrents sched emit].
  all: rewrite ?sched_move_done_data, ?torrents_move_done_data,
         ?labels_move_done_data, ?managed_move_done_data.
  all: repeat split; try done; try constructor.
  all: try (intros; lia).
  all: try naive_solver.
  all: intros [?|[_ ?]]; [done|lia].
Qed.

(** X11. A tick that finds the torrent in the client and its record in
    the store changes nothing of the record but its status, along one of
    the transitions of [transition]: it never touches a stopped or a
    pending record and never makes a record queued, stopped or pending.
    The record is saved under its own hash and broadcast last; labels and
    close channels are untouched; the loop is left exactly when the saved
    status is [StatusDone]. *)
Theorem tick_changes_status_only
    (ratio : Q) (dir hash : string) (e : Engine) (fs : FileSystem)
    (w : World) (p : TorrentProgress) (t : TorrentInfo) :
  held e = true →
  torrents w !! hash = Some t →
  let r := tick ratio dir hash e fs w p in
  ∃ st,
    transition (status t) st
    ∧ (status t = StatusStopped ∨ status t = StatusPending → st = status t)
    ∧ (st = StatusQueued ∨ st = StatusStopped ∨ st = StatusPending → st = status t)
    ∧ torrents r.1.1 = <[Hash t := set_status st t]> (torrents w)
    ∧ labels r.1.1 = labels w
    ∧ managedTorrents r.1.1 = managedTorrents w
    ∧ last (effects r.1.1) = Some (BroadcastInfo (set_status st t))
    ∧ r.1.2 = Update e p
    ∧ (r.2 = Break ↔ st = StatusDone).
Proof.
  intros Hheld Hinfo r. unfold r.
  rewrite (tick_stages ratio dir hash e fs w p t Hheld Hinfo).
  pose proof (stages_frame ratio dir hash (Update e p) fs t
                (emit (BroadcastProgress (Update e p)) w)) as Hf.
  cbn zeta in Hf |- *. destruct (stages _ _ _ _ _ _) as [t' w'].
  cbn [fst snd] in *.
  destruct Hf as (Ht' & Htr & Hto & Hl & Hm & _).
  exists (status t'). split; [exact Htr|].
  split; [intros [H|H]; rewrite H in Htr |- *; inversion Htr; congruence|].
  split; [intros [H|[H|H]]; rewrite H in Htr |- *; inversion Htr; congruence|].
  rewrite <- Ht'.
  cbn [SaveAndBroadcast emit torrents labels managedTorrents effects].
  rewrite Hto, Hl, Hm. cbn [emit torrents labels managedTorrents].
  split; [by rewrite Ht'|]. split; [done|]. split; [done|].
  split; [by rewrite last_snoc|]. split; [done|].
  case_decide; naive_solver.
Qed.

Lemma tick_changes_status_only_witness :
  ∃ st, transition StatusQueued st
        ∧ (tick 1 "./downloads" "h" (Sample.engine 0 50) Sample.fs
             (Sample.world StatusQueued) Sample.progress).2 = Continue
        ∧ st ≠ StatusDone.
Proof.
  destruct (tick_changes_status_only 1 "./downloads" "h" (Sample.engine 0 50)
              Sample.fs (Sample.world StatusQueued) Sample.progress
              (Sample.info StatusQueued))
    as (st & Htr & _ & _ & _ & _ & _ & _ & _ & Hbr).
  - reflexivity.
  - reflexivity.
  - exists st. split; [exact Htr|]. split; [reflexivity|].
    intros Hst. apply Hbr in Hst. vm_compute in Hst. discriminate Hst.
Defined.

(** X12. A tick that does not find the torrent in the client, or does not
    find its record in the store, leaves the loop.  It saves no record (a
    deleted record is not written back), broadcasts no record, and does
    not call [queue.Done]: the store, the labels, the scheduler and the
    close channels are as before. *)
Theorem tick_failure_leaves_store
    (ratio : Q) (dir hash : string) (e : Engine) (fs : FileSystem)
    (w : World) (p : TorrentProgress) :
  held e = false ∨ torrents w !! hash = None →
  let r := tick ratio dir hash e fs w p in
  r.2 = Break
  ∧ torrents r.1.1 = torrents w
  ∧ labels r.1.1 = labels w
  ∧ sched r.1.1 = sched w
  ∧ managedTorrents r.1.1 = managedTorrents w
  ∧ (∃ msg, effects r.1.1 =
       effects w ++ (if held e then [BroadcastProgress (Update e p)] else [])
                 ++ [Log msg])
  ∧ (held e = false → r.1.2 = p).
Proof.
  intros Hfail r. unfold r, tick.
  destruct (held e) eqn:Hheld; cbn [negb].
  - destruct Hfail as [?|Hnone]; [done|].
    unfold GetTorrentInfo. cbn [emit torrents]. rewrite Hnone.
    cbn [fst snd emit torrents labels sched managedTorrents effects].
    repeat split; try done. eexists. by rewrite <- app_assoc.
  - cbn [fst snd emit torrents labels sched managedTorrents effects].
    repeat split; try done. by eexists.
Qed.

Lemma tick_failure_leaves_store_witness :
  (tick 1 "./downloads" "g" (Sample.engine 0 50) Sample.fs
     (Sample.world StatusActive) Sample.progress).2 = Break.
Proof.
  destruct (tick_failure_leaves_store 1 "./downloads" "g" (Sample.engine 0 50)
              Sample.fs (Sample.world StatusActive) Sample.progress) as (H & _).
  - right. reflexivity.
  - exact H.
Defined.

(** X13. [queue.Done] is called by a tick only for a torrent that is done
    when the tick comes to its done stage: otherwise the scheduler is left
    as it is.  Such a tick leaves the loop only for a seeding torrent,
    whose slot was given up when it became done. *)
Theorem tick_keeps_slot_unless_done
    (ratio : Q) (dir hash : string) (e : Engine) (fs : FileSystem)
    (w : World) (p : TorrentProgress) (t : TorrentInfo) :
  held e = true →
  torrents w !! hash = Some t →
  ¬ reaches_done t e →
  let r := tick ratio dir hash e fs w p in
  sched r.1.1 = sched w
  ∧ (r.2 = Break → status t = StatusSeeding).
Proof.
  intros Hheld Hinfo Hnd r. unfold r.
  rewrite (tick_stages ratio dir hash e fs w p t Hheld Hinfo).
  pose proof (stages_frame ratio dir hash (Update e p) fs t
                (emit (BroadcastProgress (Update e p)) w)) as Hf.
  cbn zeta in Hf |- *.
  destruct Hf as (_ & _ & _ & _ & _ & _ & Hn).
  rewrite Update_BytesCompleted in Hn. specialize (Hn Hnd).
  split; [exact Hn|].
  cbn [fst snd]. intros Hbr.
  unfold reaches_done in Hnd.
  destruct (status t) eqn:Hst.
  - destruct (stages_incomplete ratio dir hash e p fs t
                (emit (BroadcastProgress (Update e p)) w)) as (w1 & Hs).
    { by left. } { destruct (Z.le_gt_cases (TotalBytes t) (Completed e)); [|lia]. naive_solver. }
    rewrite Hs in Hbr. cbn in Hbr. done.
  - destruct (stages_incomplete ratio dir hash e p fs t
                (emit (BroadcastProgress (Update e p)) w)) as (w1 & Hs).
    { by right. } { destruct (Z.le_gt_cases (TotalBytes t) (Completed e)); [|lia]. naive_solver. }
    rewrite Hs in Hbr. cbn in Hbr. done.
  - rewrite stages_idle in Hbr by (by left). cbn [fst] in Hbr.
    rewrite decide_False in Hbr by (rewrite Hst; done). done.
  - rewrite stages_idle in Hbr by (by right). cbn [fst] in Hbr.
    rewrite decide_False in Hbr by (rewrite Hst; done). done.
  - naive_solver.
  - done.
Qed.

Lemma tick_keeps_slot_unless_done_witness :
  sched (tick 1 "./downloads" "h" (Sample.engine 0 50) Sample.fs
           (Sample.world StatusActive) Sample.progress).1.1
  = sched (Sample.world StatusActive).
Proof.
  destruct (tick_keeps_slot_unless_done 1 "./downloads" "h" (Sample.engine 0 50)
              Sample.fs (Sample.world StatusActive) Sample.progress
              (Sample.info StatusActive)) as (H & _).
  - reflexivity.
  - reflexivity.
  - unfold reaches_done. cbn. intros [?|[_ ?]]; [done|lia].
  - exact H.
Defined.

(** ** The worker from start to end *)

(** X15. When the record cannot be loaded or the client refuses the
    magnet, [startTorrent] returns before its loop and before its deferred
    function is set up: [queue.Done] is not called, so a slot taken for
    the hash stays taken; the close channel stays registered, so that
    [stopTorrent] will still send on it; no record and no progress is
    broadcast, only a line is logged. *)
Theorem startTorrent_early_return_keeps_slot
    (ratio : Q) (dir hash : string) (add_ok : bool) (wakes : list wake)
    (held_at_close : bool) (w : World) :
  torrents w !! hash = None ∨ add_ok = false →
  ∃ w', startTorrent ratio dir hash add_ok wakes held_at_close w = Returned w'
        ∧ sched w' = sched w
        ∧ torrents w' = torrents w
        ∧ labels w' = labels w
        ∧ managedTorrents w' = {[hash]} ∪ managedTorrents w
        ∧ stopTorrent hash w' = true
        ∧ (∃ msg, effects w' = effects w ++ [Log msg]).
Proof.
  intros Hfail. unfold startTorrent, prelude, GetTorrentInfo. cbn [torrents].
  destruct (torrents w !! hash) as [t|] eqn:Hinfo.
  - destruct Hfail as [?| ->]; [done|]. cbn [negb].
    eexists. split; [done|].
    cbn [emit sched torrents labels managedTorrents effects].
    repeat split; try done; [|by eexists].
    unfold stopTorrent. cbn [emit managedTorrents].
    apply bool_decide_eq_true. set_solver.
  - eexists. split; [done|].
    cbn [emit sched torrents labels managedTorrents effects].
    repeat split; try done; [|by eexists].
    unfold stopTorrent. cbn [emit managedTorrents].
    apply bool_decide_eq_true. set_solver.
Qed.

Lemma startTorrent_early_return_keeps_slot_witness :
  ∃ w', startTorrent 1 "./downloads" "h" false [] true (Sample.world StatusActive)
          = Returned w'
        ∧ "h" ∈ activeHashes (sched w').
Proof.
  destruct (startTorrent_early_return_keeps_slot 1 "./downloads" "h" false [] true
              (Sample.world StatusActive)) as (w' & Hr & Hs & _).
  - right. reflexivity.
  - exists w'. split; [exact Hr|]. rewrite Hs.
    apply (bool_decide_unpack _). vm_compute. exact I.
Defined.

(** ** Adding, stopping and deleting a torrent *)

Lemma store_consistent_SaveAndBroadcast t w :
  store_consistent w → store_consistent (SaveAndBroadcast t w).
Proof.
  intros Hc h t'. unfold SaveAndBroadcast. cbn [emit torrents].
  destruct (decide (h = Hash t)) as [->|Hne].
  - rewrite lookup_insert_eq. by intros [= <-].
  - rewrite lookup_insert_ne by done. apply Hc.
Qed.

(** X16. [addTorrentByMagnet] fails, changing nothing, when the URI does
    not parse, when the client already holds the torrent or when the
    client refuses the magnet.  Otherwise, once the info of the torrent
    has arrived, it succeeds: the record of the
    hash is saved as [StatusQueued] (a record that was there keeps its
    other fields, whatever its status was; a new one gets the length
    from the client and, as far as the URI and the name are valid UTF-8,
    the URI and the name), the torrent is dropped from the client, and
    one entry for the hash is appended at the tail of the backlog, also
    when the backlog already has one.  Counter, active set and deliveries
    are untouched. *)
Theorem addTorrentByMagnet_queues (uri : string) (c : MagnetClient) (w : World) :
  store_consistent w →
  backlog_ok (queued (sched w)) →
  (sequence (queued (sched w)) + 1 < 2 ^ 64)%N →
  let r := addTorrentByMagnet uri c w in
  (r.2 = None ↔
     ∃ hash, parsed c = Some hash ∧ client_holds c = false ∧ add_magnet_ok c = true)
  ∧ (r.2 ≠ None → r.1 = w)
  ∧ (∀ hash, parsed c = Some hash → r.2 = None →
       (∃ t', torrents r.1 !! hash = Some t'
              ∧ status t' = StatusQueued
              ∧ (∀ t, torrents w !! hash = Some t → t' = set_status StatusQueued t)
              ∧ (torrents w !! hash = None →
                 utf8_valid uri = true → utf8_valid (t_Name c) = true →
                 t' = mkInfo hash (t_Name c) (now c) (t_Length c) StatusQueued uri ""))
       ∧ (∀ h, h ≠ hash → torrents r.1 !! h = torrents w !! h)
       ∧ (values (queued (sched r.1)) = values (queued (sched w)) ++ [hash])
       ∧ numActive (sched r.1) = numActive (sched w)
       ∧ activeHashes (sched r.1) = activeHashes (sched w)
       ∧ delivered (sched r.1) = delivered (sched w)
       ∧ labels r.1 = labels w
       ∧ managedTorrents r.1 = managedTorrents w
       ∧ last (effects r.1) = Some (Drop hash)
       ∧ backlog_ok (queued (sched r.1))
       ∧ store_consistent r.1).
Proof.
  intros Hc Hok Hroom r. unfold r, addTorrentByMagnet.
  destruct (parsed c) as [hash|] eqn:Hp; [|split; [naive_solver|done]].
  destruct (client_holds c) eqn:Hh; [split; [naive_solver|done]|].
  destruct (add_magnet_ok c) eqn:Ha; cbn [negb]; [|split; [naive_solver|done]].
  unfold GetTorrentInfo.
  destruct (torrents w !! hash) as [t|] eqn:Hinfo.
  - assert (HH : Hash t = hash) by (by apply Hc).
    cbn [fst snd SaveAndBroadcast emit with_sched Add sched torrents labels
         managedTorrents effects set_status Hash queued numActive activeHashes
         delivered].
    rewrite HH.
    split; [naive_solver|]. split; [done|].
    intros ? [= <-] _.
    split; [exists (set_status StatusQueued t); rewrite lookup_insert_eq;
            split; [done|]; split; [done|];
            split; [intros ? ?; congruence|intros ?; congruence]|].
    split; [intros h Hne; by rewrite lookup_insert_ne|].
    split; [rewrite (Put_AutoIncrement_entries _ Hok) by done;
            unfold values; cbn [entries]; by rewrite fmap_app|].
    do 5 (split; [done|]).
    split; [by rewrite last_snoc|].
    split; [by apply Put_AutoIncrement_ok|].
    intros h t'.
    cbn [torrents with_sched emit SaveAndBroadcast set_status Hash]. rewrite HH.
    destruct (decide (h = hash)) as [->|Hne].
    + rewrite lookup_insert_eq. intros [= <-]. done.
    + rewrite lookup_insert_ne by done. apply Hc.
  - cbn [fst snd SaveAndBroadcast emit with_sched Add sched torrents labels
         managedTorrents effects set_status Hash Name TimeAdded TotalBytes
         Magnet LabelID status queued numActive activeHashes delivered].
    split; [naive_solver|]. split; [done|].
    intros ? [= <-] _.
    split; [eexists; rewrite lookup_insert_eq;
            split; [done|]; split; [done|];
            split; [intros ? ?; congruence|done]|].
    split; [intros h Hne; by rewrite !lookup_insert_ne|].
    split; [rewrite (Put_AutoIncrement_entries _ Hok) by done;
            unfold values; cbn [entries]; by rewrite fmap_app|].
    do 5 (split; [done|]).
    split; [by rewrite last_snoc|].
    split; [by apply Put_AutoIncrement_ok|].
    intros h t'.
    cbn [torrents with_sched emit SaveAndBroadcast set_status Hash].
    destruct (decide (h = hash)) as [->|Hne].
    + rewrite lookup_insert_eq. intros [= <-]. done.
    + rewrite !lookup_insert_ne by done. apply Hc.
Qed.

Lemma addTorrentByMagnet_queues_witness :
  torrents (addTorrentByMagnet "magnet:?xt=urn:btih:h"
              (mkMagnetClient (Some "h") false true 7 "name" 100)
              (mkWorld ∅ ∅ Queue.init ∅ [])).1 !! "h"
  = Some (mkInfo "h" "name" 7 100 StatusQueued "magnet:?xt=urn:btih:h" "").
Proof.
  destruct (addTorrentByMagnet_queues "magnet:?xt=urn:btih:h"
              (mkMagnetClient (Some "h") false true 7 "name" 100)
              (mkWorld ∅ ∅ Queue.init ∅ [])) as (_ & _ & H).
  - intros h t. cbn [torrents]. by rewrite lookup_empty.
  - split; [vm_compute; reflexivity|split; constructor].
  - vm_compute. reflexivity.
  - destruct (H "h") as ((t' & Ht' & _ & _ & Hnew) & _); [reflexivity|reflexivity|].
    rewrite Ht'. f_equal. apply Hnew.
    + reflexivity.
    + vm_compute. reflexivity.
    + vm_compute. reflexivity.
Defined.







(** ** Records and labels *)

Lemma store_consistent_unset_label id all w :
  store_consistent w → store_consistent (unset_label id all w).
Proof.
  revert w. induction all as [|t all IH]; intros w Hc; [done|].
  cbn [unset_label foldl]. apply IH.
  case_decide; [|done]. by apply store_consistent_SaveAndBroadcast.
Qed.

(** X19. Every record is stored under its own hash: a tick of a worker
    and the handlers that add, stop, delete and label torrents keep this
    so, whatever their arguments and whichever way they end. *)
Theorem store_consistent_kept
    (ratio : Q) (dir hash uri id : string) (e : Engine) (fs : FileSystem)
    (p : TorrentProgress) (c : MagnetClient) (withData : bool)
    (labelID : option string) (w : World) :
  store_consistent w →
  store_consistent (tick ratio dir hash e fs w p).1.1
  ∧ store_consistent (addTorrentByMagnet uri c w).1
  ∧ store_consistent (handleMsgTorrentStop hash w).1.2
  ∧ store_consistent (handleMsgTorrentDelete dir hash withData w).1.1.2
  ∧ store_consistent (handleMsgLabelSet hash labelID w).1
  ∧ store_consistent (handleMsgLabelDelete id w).1.1.
Proof.
  intros Hc. split; [|split; [|split; [|split; [|split]]]].
  - unfold tick. destruct (held e); cbn [negb]; [|done].
    destruct (GetTorrentInfo hash _) as [t|] eqn:Hi; [|done].
    pose proof (stages_frame ratio dir hash (Update e p) fs t
                  (emit (BroadcastProgress (Update e p)) w)) as Hf.
    cbn zeta in Hf. destruct (stages _ _ _ _ _ _) as [t' w'].
    cbn [fst snd] in *. destruct Hf as (_ & _ & Hto & _).
    apply store_consistent_SaveAndBroadcast.
    intros h t0. rewrite Hto. apply Hc.
  - unfold addTorrentByMagnet.
    destruct (parsed c) as [h|]; [|done].
    destruct (client_holds c); [done|].
    destruct (add_magnet_ok c); cbn [negb]; [|done].
    destruct (GetTorrentInfo h w) as [t|]; cbn [fst].
    + by apply (store_consistent_SaveAndBroadcast (set_status StatusQueued t)).
    + apply (store_consistent_SaveAndBroadcast
               (set_status StatusQueued (mkInfo h (t_Name c) (now c) (t_Length c)
                                                StatusPending uri ""))).
      by apply store_consistent_SaveAndBroadcast.
  - unfold handleMsgTorrentStop. destruct (torrents w !! hash); [|done].
    by apply store_consistent_SaveAndBroadcast.
  - unfold handleMsgTorrentDelete. destruct (GetTorrentInfo hash w); [|done].
    cbn [fst snd]. intros h t0. cbn [torrents].
    intros [_ Hl]%lookup_delete_Some. by apply Hc.
  - unfold handleMsgLabelSet. destruct labelID as [l|].
    + destruct (labels w !! l); [|done].
      destruct (GetTorrentInfo hash w); [|done].
      by apply store_consistent_SaveAndBroadcast.
    + destruct (GetTorrentInfo hash w); [|done].
      by apply store_consistent_SaveAndBroadcast.
  - unfold handleMsgLabelDelete. destruct (labels w !! id); [|done].
    cbn [fst]. by apply store_consistent_unset_label.
Qed.

Lemma store_consistent_kept_witness :
  store_consistent (tick 1 "./downloads" "h" (Sample.engine 0 50) Sample.fs
                      (Sample.world StatusActive) Sample.progress).1.1.
Proof.
  apply (store_consistent_kept 1 "./downloads" "h" "" "" (Sample.engine 0 50)
           Sample.fs Sample.progress (mkMagnetClient None false false 0 "" 0)
           false None (Sample.world StatusActive)).
  intros h t. unfold Sample.world. cbn [torrents].
  intros [<- <-]%lookup_singleton_Some. reflexivity.
Defined.

(** The records that [GetAllTorrentInfo] returns are those of the store. *)
Lemma elem_of_GetAllTorrentInfo t w :
  t ∈ GetAllTorrentInfo w ↔ ∃ h, torrents w !! h = Some t.
Proof.
  unfold GetAllTorrentInfo. rewrite merge_sort_Permutation.
  rewrite list_elem_of_fmap. split.
  - intros ([h t'] & -> & Hin). exists h. by apply elem_of_map_to_list in Hin.
  - intros (h & Hl). exists (h, t). split; [done|]. by apply elem_of_map_to_list.
Qed.

Lemma NoDup_GetAllTorrentInfo w :
  store_consistent w → NoDup (Hash <$> GetAllTorrentInfo w).
Proof.
  intros Hc. unfold GetAllTorrentInfo. rewrite merge_sort_Permutation.
  assert (Heq : Hash <$> (snd <$> map_to_list (torrents w))
                = fst <$> map_to_list (torrents w)).
  { rewrite <- list_fmap_compose. apply Forall_fmap_ext_1, Forall_forall.
    intros [h t] Hin%elem_of_map_to_list. cbn. by apply Hc. }
  rewrite Heq. apply NoDup_fst_map_to_list.
Qed.

(** The label that the loop of [handleMsgLabelDelete] leaves in a record. *)
Lemma unset_label_spec id all w :
  NoDup (Hash <$> all) →
  (∀ t, t ∈ all → torrents w !! Hash t = Some t) →
  let w' := unset_label id all w in
  (∀ h, h ∉ Hash <$> all → torrents w' !! h = torrents w !! h)
  ∧ (∀ t, t ∈ all →
       torrents w' !! Hash t =
         Some (if decide (LabelID t = id) then set_label "" t else t))
  ∧ labels w' = labels w
  ∧ sched w' = sched w
  ∧ managedTorrents w' = managedTorrents w.
Proof.
  revert w. induction all as [|t all IH]; intros w Hnd Hall.
  { cbn. repeat split; try done. intros t Ht. by apply elem_of_nil in Ht. }
  rewrite fmap_cons in Hnd. apply NoDup_cons in Hnd as [Hnin Hnd].
  set (w1 := if decide (LabelID t = id)
             then SaveAndBroadcast (set_label "" t) w else w).
  assert (Hw1 : ∀ h, h ≠ Hash t → torrents w1 !! h = torrents w !! h).
  { intros h Hne. unfold w1. case_decide; [|done].
    cbn [SaveAndBroadcast emit torrents set_label Hash].
    by rewrite lookup_insert_ne. }
  assert (Hw1t : torrents w1 !! Hash t =
                 Some (if decide (LabelID t = id) then set_label "" t else t)).
  { unfold w1. case_decide.
    - cbn [SaveAndBroadcast emit torrents set_label Hash].
      by rewrite lookup_insert_eq.
    - apply Hall. by left. }
  assert (Hframe : labels w1 = labels w ∧ sched w1 = sched w
                   ∧ managedTorrents w1 = managedTorrents w).
  { unfold w1. by case_decide. }
  destruct (IH w1 Hnd) as (Hout & Hin & Hl & Hs & Hm).
  { intros t' Ht'. rewrite Hw1; [apply Hall; by right|].
    intros Heq. apply Hnin. rewrite <- Heq. apply list_elem_of_fmap. by exists t'. }
  cbn zeta. change (unset_label id (t :: all) w) with (unset_label id all w1).
  destruct Hframe as (Hl1 & Hs1 & Hm1).
  split; [|split; [|by rewrite Hl, Hs, Hm]].
  - intros h Hh. rewrite fmap_cons in Hh. apply not_elem_of_cons in Hh as [Hne Hh].
    rewrite Hout by done. by apply Hw1.
  - intros t' [->|Ht']%elem_of_cons.
    + rewrite Hout by done. exact Hw1t.
    + by apply Hin.
Qed.

(** X20. [handleMsgLabelDelete] fails, changing nothing, for an id that
    has no label.  Otherwise it deletes the label, broadcasts the deletion
    and unsets the label of exactly the records that name it, leaving
    their other fields and all other records as they are; the scheduler
    and the close channels are untouched.  Afterwards no record names the
    deleted label, and if every label named by a record existed before,
    this is still so. *)
Theorem handleMsgLabelDelete_unsets (id : string) (w : World) :
  store_consistent w →
  let r := handleMsgLabelDelete id w in
  (labels w !! id = None → r = (w, [], false))
  ∧ (is_Some (labels w !! id) →
     r.2 = true
     ∧ r.1.2 = [BroadcastLabelDelete id]
     ∧ labels r.1.1 = delete id (labels w)
     ∧ torrents r.1.1 =
         (λ t, if decide (LabelID t = id) then set_label "" t else t) <$> torrents w
     ∧ (id ≠ "" → ∀ h t, torrents r.1.1 !! h = Some t → LabelID t ≠ id)
     ∧ sched r.1.1 = sched w
     ∧ managedTorrents r.1.1 = managedTorrents w
     ∧ (labels_resolved w → labels_resolved r.1.1)).
Proof.
  intros Hc r. unfold r, handleMsgLabelDelete.
  split; [by intros ->|]. intros [l Hl]. rewrite Hl. cbn [fst snd].
  set (w0 := mkWorld (torrents w) (delete id (labels w)) (sched w)
                     (managedTorrents w) (effects w)).
  assert (Hc0 : store_consistent w0) by done.
  destruct (unset_label_spec id (GetAllTorrentInfo w0) w0) as (Hout & Hin & Hl' & Hs & Hm).
  { by apply NoDup_GetAllTorrentInfo. }
  { intros t (h & Ht)%elem_of_GetAllTorrentInfo.
    by rewrite (Hc0 h t Ht). }
  assert (Hmap : torrents (unset_label id (GetAllTorrentInfo w0) w0) =
    (λ t, if decide (LabelID t = id) then set_label "" t else t) <$> torrents w).
  { apply map_eq. intros h. rewrite lookup_fmap.
    destruct (torrents w !! h) as [t|] eqn:Ht; cbn [fmap option_fmap option_map].
    - rewrite <- (Hc h t Ht). apply Hin. apply elem_of_GetAllTorrentInfo.
      by exists h.
    - rewrite Hout; [done|].
      intros (t & -> & (h' & Ht')%elem_of_GetAllTorrentInfo)%list_elem_of_fmap.
      cbn [torrents w0] in Ht'. rewrite (Hc0 h' t Ht') in Ht. congruence. }
  split; [done|]. split; [done|]. split; [by rewrite Hl'|]. split; [exact Hmap|].
  split; [|split; [done|split; [done|]]].
  - intros Hne h t. rewrite Hmap, lookup_fmap.
    intros (t0 & _ & ->)%fmap_Some. case_decide; [|done].
    cbn [set_label LabelID]. congruence.
  - intros Hres h t. rewrite Hmap, lookup_fmap, Hl'.
    intros (t0 & Ht0 & ->)%fmap_Some. case_decide as Hid.
    + cbn [set_label LabelID]. done.
    + intros Hne. cbn [labels w0]. rewrite lookup_delete_ne by done.
      by apply (Hres h).
Qed.

Lemma handleMsgLabelDelete_unsets_witness :
  torrents (handleMsgLabelDelete "l"
    (mkWorld {["h" := mkInfo "h" "name" 0 100 StatusDone "magnet:?xt=urn:btih:h" "l"]}
             {["l" := mkLabel "l" "films" "red" "/films"]} Queue.init ∅ [])).1.1
  !! "h" = Some (mkInfo "h" "name" 0 100 StatusDone "magnet:?xt=urn:btih:h" "").
Proof.
  destruct (handleMsgLabelDelete_unsets "l"
    (mkWorld {["h" := mkInfo "h" "name" 0 100 StatusDone "magnet:?xt=urn:btih:h" "l"]}
             {["l" := mkLabel "l" "films" "red" "/films"]} Queue.init ∅ []))
    as (_ & H).
  - intros h t. cbn [torrents]. intros [<- <-]%lookup_singleton_Some. reflexivity.
  - destruct H as (_ & _ & _ & Hmap & _).
    + eexists. reflexivity.
    + rewrite Hmap. reflexivity.
Defined.

(** X21. [handleMsgLabelSet] succeeds exactly when the hash has a record
    and the label id, if one is given, has a label; a failure changes
    nothing.  On success only the label of that record changes: to the
    given id, or to none when the payload has no id.  If every label named
    by a record existed before, this is still so. *)
Theorem handleMsgLabelSet_checks_label
    (hash : string) (labelID : option string) (w : World) :
  store_consistent w →
  labels_resolved w →
  let r := handleMsgLabelSet hash labelID w in
  (r.2 = true ↔
     is_Some (torrents w !! hash)
     ∧ (∀ id, labelID = Some id → is_Some (labels w !! id)))
  ∧ (r.2 = false → r.1 = w)
  ∧ (∀ t, torrents w !! hash = Some t → r.2 = true →
       torrents r.1 = <[hash := set_label (default "" labelID) t]> (torrents w)
       ∧ labels r.1 = labels w
       ∧ sched r.1 = sched w
       ∧ managedTorrents r.1 = managedTorrents w
       ∧ last (effects r.1) = Some (BroadcastInfo (set_label (default "" labelID) t)))
  ∧ labels_resolved r.1.
Proof.
  intros Hc Hres r. unfold r, handleMsgLabelSet, GetTorrentInfo.
  assert (Hsave : ∀ t id, torrents w !! hash = Some t →
            (id ≠ "" → is_Some (labels w !! id)) →
            labels_resolved (SaveAndBroadcast (set_label id t) w)).
  { intros t id Ht Hid h t'. cbn [SaveAndBroadcast emit torrents labels set_label Hash].
    rewrite (Hc hash t Ht).
    destruct (decide (h = hash)) as [->|Hne].
    - rewrite lookup_insert_eq. intros [= <-]. cbn [LabelID]. exact Hid.
    - rewrite lookup_insert_ne by done. apply Hres. }
  destruct labelID as [id|]; cbn [default from_option Datatypes.id].
  - destruct (labels w !! id) as [l|] eqn:Hl.
    + destruct (torrents w !! hash) as [t|] eqn:Ht; cbn [fst snd].
      * split; [split; [intros _; split; [by eexists|]; intros ? [= <-]; by eexists|done]|].
        split; [done|]. split; [|apply Hsave; [done|by eexists]].
        intros ? [= <-] _.
        cbn [SaveAndBroadcast emit torrents labels sched managedTorrents effects
             set_label Hash].
        rewrite (Hc hash t Ht). by rewrite last_snoc.
      * split; [split; [done|]; intros [[? ?] _]; done|].
        split; [done|]. split; [done|exact Hres].
    + cbn [fst snd]. split.
      { split; [done|]. intros [_ H]. destruct (H id eq_refl); congruence. }
      split; [done|]. split; [done|exact Hres].
  - destruct (torrents w !! hash) as [t|] eqn:Ht; cbn [fst snd].
    + split; [split; [intros _; split; [by eexists|]; intros ? [=]|done]|].
      split; [done|]. split; [|apply Hsave; done].
      intros ? [= <-] _.
      cbn [SaveAndBroadcast emit torrents labels sched managedTorrents effects
           set_label Hash].
      rewrite (Hc hash t Ht). by rewrite last_snoc.
    + split; [split; [done|]; intros [[? ?] _]; done|].
      split; [done|]. split; [done|exact Hres].
Qed.

Lemma handleMsgLabelSet_checks_label_witness :
  (handleMsgLabelSet "h" (Some "missing")
    (mkWorld {["h" := mkInfo "h" "name" 0 100 StatusDone "magnet:?xt=urn:btih:h" "l"]}
             {["l" := mkLabel "l" "films" "red" "/films"]} Queue.init ∅ [])).2 ≠ true.
Proof.
  destruct (handleMsgLabelSet_checks_label "h" (Some "missing")
    (mkWorld {["h" := mkInfo "h" "name" 0 100 StatusDone "magnet:?xt=urn:btih:h" "l"]}
             {["l" := mkLabel "l" "films" "red" "/films"]} Queue.init ∅ []))
    as (Hiff & _).
  - intros h t. cbn [torrents]. intros [<- <-]%lookup_singleton_Some. reflexivity.
  - intros h t. cbn [torrents labels]. intros [<- <-]%lookup_singleton_Some _.
    eexists. reflexivity.
  - intros Htrue. apply Hiff in Htrue as [_ Hlab].
    destruct (Hlab "missing" eq_refl) as [l Hl].
    vm_compute in Hl. discriminate Hl.
Defined.

(** ** Progress *)

(** X22. While the client's counters do not go down and all numbers are
    below 2^62, [Update] makes each rate the mean, rounded down, of the
    former rate and the bytes moved since the last update; the rate stays
    within the same bounds, so the same holds at the next update, and a
    second without traffic halves it.  The byte counts are those of the
    client, and the ratio is 0 while nothing is completed. *)
Theorem Update_rates (e : Engine) (p : TorrentProgress) :
  0 ≤ BpsUp p < 2 ^ 62 →
  0 ≤ BpsDown p < 2 ^ 62 →
  0 ≤ BytesUploaded p ≤ BytesWritten e →
  BytesWritten e < 2 ^ 62 →
  0 ≤ BytesCompleted p ≤ Completed e →
  Completed e < 2 ^ 62 →
  let p' := Update e p in
  BpsUp p' = (BpsUp p + (BytesWritten e - BytesUploaded p)) / 2
  ∧ BpsDown p' = (BpsDown p + (Completed e - BytesCompleted p)) / 2
  ∧ 0 ≤ BpsUp p' < 2 ^ 62
  ∧ 0 ≤ BpsDown p' < 2 ^ 62
  ∧ (BytesWritten e = BytesUploaded p → BpsUp p' = BpsUp p / 2)
  ∧ (Completed e = BytesCompleted p → BpsDown p' = BpsDown p / 2)
  ∧ BytesUploaded p' = BytesWritten e
  ∧ BytesCompleted p' = Completed e
  ∧ pHash p' = pHash p
  ∧ (Completed e = 0 → (Ratio p' == 0)%Q).
Proof.
  intros Hu Hd Hw Hw' Hc Hc' p'. unfold p', Update.
  cbn [BpsUp BpsDown BytesUploaded BytesCompleted pHash Ratio].
  assert (Hwrap : ∀ z, 0 ≤ z < 2 ^ 63 → int64_wrap z = z).
  { intros z Hz. unfold int64_wrap. rewrite Z.mod_small by lia. lia. }
  rewrite !Hwrap by (rewrite ?Hwrap by lia; lia).
  rewrite !Z.quot_div_nonneg by lia.
  assert (H62 : 2 ^ 62 = 4611686018427387904) by reflexivity.
  rewrite H62 in *.
  split; [done|]. split; [done|].
  split; [split; [apply Z.div_pos; lia|apply Z.div_lt_upper_bound; lia]|].
  split; [split; [apply Z.div_pos; lia|apply Z.div_lt_upper_bound; lia]|].
  split; [intros ->; f_equal; lia|]. split; [intros ->; f_equal; lia|].
  split; [done|]. split; [done|]. split; [done|].
  intros ->. reflexivity.
Qed.

Lemma Update_rates_witness :
  BpsUp (Update (mkEngine true 300 500 3 7) (mkProgress "h" 100 100 50 0 0 0 0)) = 125.
Proof.
  destruct (Update_rates (mkEngine true 300 500 3 7) (mkProgress "h" 100 100 50 0 0 0 0))
    as (H & _).
  - cbn. lia.
  - cbn. lia.
  - cbn. lia.
  - cbn. lia.
  - cbn. lia.
  - cbn. lia.
  - rewrite H. reflexivity.
Defined.

End ManageFacts.


(* ===================================================================== *)
(** * Facts about the goroutines step by step                            *)
(* ===================================================================== *)

Module QueueFineFacts.
Import Database Queue QueueFine DatabaseFacts QueueFacts.

Ltac fine_norm :=
  cbn [shared pc taking signalling deleting forcing
       numActive activeHashes queued delivered
       Add Remove raise Next activeHashes_Delete Run_select] in *.

Lemma take_out_Some h l l' : take_out h l = Some l' → l ≡ₚ h :: l'.
Proof.
  revert l'. induction l as [|x l IH]; intros l'; cbn [take_out]; [done|].
  case_decide as Hx.
  - intros [= <-]. by subst.
  - destruct (take_out h l) as [l0|]; cbn; [|done].
    intros [= <-]. rewrite (IH l0 eq_refl). apply Permutation_swap.
Qed.

Lemma take_out_length h l l' :
  take_out h l = Some l' → length l = S (length l').
Proof. intros H%take_out_Some. by rewrite H. Qed.

Lemma mrun_cons k m ms f :
  mrun k (m :: ms) f = mstep k m f ≫= mrun k ms.
Proof. cbn [mrun]. by destruct (mstep k m f). Qed.

Lemma mrun_app k ms1 ms2 f :
  mrun k (ms1 ++ ms2) f = mrun k ms1 f ≫= mrun k ms2.
Proof.
  revert f. induction ms1 as [|m ms1 IH]; intros f; [done|].
  cbn [app mrun]. destruct (mstep k m f); [apply IH|done].
Qed.

(** Every step keeps [fine_ok], with the bound one higher after a forced
    hash was received, and does not lower [fslack]. *)
Lemma mstep_ok k B m f f' :
  0 ≤ k → k ≤ B →
  (if is_RunRecvForce m then B + 1 else B) < 2 ^ 63 →
  fine_ok B f →
  (∀ h, m = DoneLoads h → h ∉ signalling f ++ deleting f) →
  mstep k m f = Some f' →
  fine_ok (if is_RunRecvForce m then B + 1 else B) f'
  ∧ fslack f ≤ fslack f'.
Proof.
  intros Hk HkB HB (Hnd & Hmem & Hsl & Hn0 & HnB) Hex Hstep.
  unfold fine_ok, fslack, carrying in *.
  destruct m as [h|h|h|h|h|h| | | | | | |h]; cbn [mstep is_RunRecvForce] in *.
  - injection Hstep as <-. fine_norm. done.
  - injection Hstep as <-. fine_norm. done.
  - injection Hstep as <-. fine_norm. done.
  - case_decide as Hin; injection Hstep as <-; fine_norm; [|done].
    split; [|lia]. split; [|split; [|done]].
    + cbn [app]. apply NoDup_cons. split; [by apply Hex|done].
    + intros h' [->|?]%elem_of_cons; [done|by apply Hmem].
  - destruct (pc f) eqn:Hpc; try done.
    destruct (take_out h (signalling f)) as [rest|] eqn:Hto; [|done].
    injection Hstep as <-. fine_norm.
    apply take_out_Some in Hto.
    assert (Hperm : rest ++ h :: deleting f ≡ₚ signalling f ++ deleting f).
    { rewrite Hto. by rewrite <- Permutation_middle. }
    rewrite int_wrap_id by lia.
    destruct (Z.ltb_spec (numActive (shared f) - 1) 0).
    + split; [|cbn [length]; lia].
      split; [by rewrite Hperm|]. split; [intros h'; rewrite Hperm; apply Hmem|].
      cbn [length]. lia.
    + split; [|cbn [length]; lia].
      split; [by rewrite Hperm|]. split; [intros h'; rewrite Hperm; apply Hmem|].
      cbn [length]. lia.
  - destruct (pc f) eqn:Hpc; try done.
    destruct (take_out h (forcing f)) as [rest|] eqn:Hto; [|done].
    injection Hstep as <-. fine_norm.
    rewrite int_wrap_id by lia. split; [|lia].
    split; [done|]. split; [done|]. lia.
  - destruct (pc f) eqn:Hpc; try done.
    injection Hstep as <-. fine_norm. done.
  - destruct (pc f) eqn:Hpc; try done.
    injection Hstep as <-. fine_norm. done.
  - destruct (pc f) eqn:Hpc; try done.
    destruct (Z.ltb_spec (numActive (shared f)) k).
    + destruct (Get_FirstKey (queued (shared f))) as [buf|];
        injection Hstep as <-; fine_norm; [|done].
      rewrite int_wrap_id by lia. split; [|lia].
      split; [done|]. split; [done|]. lia.
    + injection Hstep as <-. fine_norm. done.
  - destruct (taking f) eqn:Ht; try done.
    destruct (pc f) eqn:Hpc; try done; injection Hstep as <-; fine_norm.
    + split; [|lia]. split; [done|]. split; [done|]. lia.
    + split; [|lia]. split; [done|]. split; [done|]. lia.
  - destruct (taking f) as [[o h]|] eqn:Ht; [|done].
    injection Hstep as <-. fine_norm.
    pose proof (size_store h (activeHashes (shared f))).
    split; [|lia]. split; [done|].
    split; [intros h' Hh'; apply elem_of_union_r; by apply Hmem|]. lia.
  - destruct (pc f) eqn:Hpc; try done.
    injection Hstep as <-. fine_norm. done.
  - destruct (take_out h (deleting f)) as [rest|] eqn:Hto; [|done].
    injection Hstep as <-. fine_norm.
    pose proof (take_out_length _ _ _ Hto) as Hlen.
    apply take_out_Some in Hto.
    assert (Hperm : signalling f ++ deleting f ≡ₚ h :: (signalling f ++ rest)).
    { rewrite Hto. by rewrite <- Permutation_middle. }
    rewrite Hperm in Hnd. apply NoDup_cons in Hnd as [Hnin Hnd'].
    assert (Hin : h ∈ activeHashes (shared f)).
    { apply Hmem. rewrite Hperm. by left. }
    rewrite (size_delete h _ Hin).
    assert (0 < size (activeHashes (shared f)))%nat.
    { destruct (decide (size (activeHashes (shared f)) = 0%nat))
        as [E%size_empty_inv|]; [|lia]. set_solver. }
    split; [|lia]. split; [done|]. split; [|lia].
    intros h' Hh'. apply elem_of_difference. split.
    + apply Hmem. rewrite Hperm. by right.
    + intros ->%elem_of_singleton. done.
Qed.

Lemma received_forces_cons m ms :
  received_forces (m :: ms)
  = (if is_RunRecvForce m then 1 else 0) + received_forces ms.
Proof.
  unfold received_forces. rewrite filter_cons.
  destruct (is_RunRecvForce m); [rewrite decide_True by done|rewrite decide_False by done];
    cbn [length]; lia.
Qed.

Lemma received_forces_nonneg ms : 0 ≤ received_forces ms.
Proof. unfold received_forces. lia. Qed.

Lemma received_forces_app ms1 ms2 :
  received_forces (ms1 ++ ms2) = received_forces ms1 + received_forces ms2.
Proof.
  induction ms1 as [|m ms1 IH]; [unfold received_forces; cbn; lia|].
  cbn [app]. rewrite !received_forces_cons, IH. lia.
Qed.

Lemma exclusive_Done_app k ms1 ms2 f f1 :
  mrun k ms1 f = Some f1 →
  exclusive_Done k (ms1 ++ ms2) f
  = exclusive_Done k ms1 f && exclusive_Done k ms2 f1.
Proof.
  revert f. induction ms1 as [|m ms1 IH]; intros f.
  - intros [= <-]. done.
  - cbn [app mrun exclusive_Done]. destruct (mstep k m f) as [f0|]; [|done].
    intros Hrun. rewrite (IH f0 Hrun). by rewrite andb_assoc.
Qed.

Lemma fine_ok_mono B B' f : B ≤ B' → fine_ok B f → fine_ok B' f.
Proof. intros HB (? & ? & ? & ? & ?). repeat split; try done. lia. Qed.

Lemma fine_start_ok k b : 0 ≤ k → fine_ok k (fine_start b).
Proof.
  intros Hk. unfold fine_ok, fslack, carrying, fine_start, start. fine_norm.
  rewrite size_empty. repeat split; try lia.
  - apply NoDup_nil_2.
  - intros h Hh. by apply elem_of_nil in Hh.
Qed.

(** [fine_ok] along a sequence of steps. *)
Lemma mrun_ok k F ms f f' :
  0 ≤ k → 0 ≤ F →
  k + F + received_forces ms < 2 ^ 63 →
  fine_ok (k + F) f →
  exclusive_Done k ms f = true →
  mrun k ms f = Some f' →
  fine_ok (k + F + received_forces ms) f' ∧ fslack f ≤ fslack f'.
Proof.
  intros Hk. revert F f. induction ms as [|m ms IH]; intros F f HF HB Hok Hex Hrun.
  - injection Hrun as <-. unfold received_forces. cbn [filter length].
    split; [|lia]. eapply fine_ok_mono; [|exact Hok]. cbn. lia.
  - cbn [mrun exclusive_Done] in Hrun, Hex.
    rewrite received_forces_cons in HB |- *.
    pose proof (received_forces_nonneg ms).
    apply andb_prop in Hex as [Hex_m Hex].
    destruct (mstep k m f) as [f0|] eqn:Hstep; [|done].
    destruct (mstep_ok k (k + F) m f f0) as [Hok0 Hsl0]; [lia|lia| |done| |done|].
    { destruct (is_RunRecvForce m); lia. }
    { intros h ->. by apply bool_decide_eq_true in Hex_m. }
    destruct (is_RunRecvForce m).
    + destruct (IH (F + 1) f0) as [Hok' Hsl']; [lia|lia| |done|done|].
      { by replace (k + (F + 1)) with (k + F + 1) by lia. }
      split; [|lia].
      by replace (k + F + (1 + received_forces ms))
        with (k + (F + 1) + received_forces ms) by lia.
    + destruct (IH F f0) as [Hok' Hsl']; [lia|lia|done|done|done|].
      split; [|lia].
      by replace (k + F + (0 + received_forces ms))
        with (k + F + received_forces ms) by lia.
Qed.

(** Without a call of [ForceNext], [Run] receives no forced hash. *)
Lemma no_ForceNext_received k ms f f' :
  forcing f = [] → no_ForceNext ms = true → mrun k ms f = Some f' →
  received_forces ms = 0 ∧ forcing f' = [].
Proof.
  revert f. induction ms as [|m ms IH]; intros f Hf Hnf Hrun.
  - injection Hrun as <-. done.
  - cbn [mrun no_ForceNext forallb] in Hrun, Hnf.
    apply andb_prop in Hnf as [Hm Hnf].
    destruct (mstep k m f) as [f0|] eqn:Hstep; [|done].
    assert (is_RunRecvForce m = false ∧ forcing f0 = []) as [Hrf Hf0].
    { destruct m; cbn [mstep is_RunRecvForce is_CallForceNext negb] in *; try done.
      - injection Hstep as <-. done.
      - injection Hstep as <-. done.
      - case_decide; injection Hstep as <-; done.
      - destruct (pc f); try done.
        destruct (take_out _ _); [|done]. injection Hstep as <-. done.
      - rewrite Hf in Hstep. by destruct (pc f).
      - destruct (pc f); try done. injection Hstep as <-. done.
      - destruct (pc f); try done. injection Hstep as <-. done.
      - destruct (pc f); try done.
        destruct (_ <? _); [destruct (Get_FirstKey _)|]; injection Hstep as <-; done.
      - destruct (taking f); try done.
        destruct (pc f); try done; injection Hstep as <-; done.
      - destruct (taking f) as [[? ?]|]; [|done]. injection Hstep as <-. done.
      - destruct (pc f); try done. injection Hstep as <-. done.
      - destruct (take_out _ _); [|done]. injection Hstep as <-. done. }
    destruct (IH f0 Hf0 Hnf Hrun) as [Hr Hf'].
    rewrite received_forces_cons, Hrf, Hr. done.
Qed.

Lemma fine_ok_size B f :
  fine_ok B f →
  Z.of_nat (size (activeHashes (shared f))) + carrying f
    ≤ numActive (shared f) + Z.of_nat (length (deleting f))
  ∧ 0 ≤ carrying f.
Proof.
  intros (_ & _ & Hsl & _). unfold fslack in Hsl. split; [lia|].
  unfold carrying. destruct (pc f), (taking f); lia.
Qed.

Lemma take_out_elem h l l' : take_out h l = Some l' → h ∈ l ∧ l' ⊆ l.
Proof.
  intros H%take_out_Some. split; [rewrite H; by left|].
  intros x Hx. rewrite H. by right.
Qed.

(** While a call of [Done] waits to signal, the counter is at least 1. *)
Lemma fine_ok_signalling B f h :
  fine_ok B f → h ∈ signalling f →
  h ∈ activeHashes (shared f) ∧ 1 ≤ numActive (shared f).
Proof.
  intros (Hnd & Hmem & Hsl & _) Hh.
  split; [apply Hmem, elem_of_app; by left|].
  assert (Hlen : (length (signalling f ++ deleting f)
                  ≤ size (activeHashes (shared f)))%nat).
  { rewrite <- (size_list_to_set (C := gset string)) by done.
    apply subseteq_size. intros x Hx%elem_of_list_to_set. by apply Hmem. }
  rewrite length_app in Hlen.
  assert (0 < length (signalling f))%nat.
  { destruct (signalling f); [by apply elem_of_nil in Hh|cbn; lia]. }
  unfold fslack, carrying in Hsl. destruct (pc f), (taking f); lia.
Qed.

(** C1, as stated, fails: with [maxActive = 1], no call of [ForceNext]
    and a single call of [Done], two hashes are in [activeHashes] at the
    moment when [Done "a"] has signalled [Run], [Run] has polled ["b"]
    and [Next] has stored it, and [Done] has not yet deleted ["a"]. *)
Lemma C1_counterexample :
  ¬ (∀ (k : Z) (b : Bucket) (ms : list micro) (f : Fine),
       0 ≤ k < 2 ^ 63 →
       no_ForceNext ms = true →
       exclusive_Done k ms (fine_start b) = true →
       mrun k ms (fine_start b) = Some f →
       Z.of_nat (size (activeHashes (shared f))) ≤ k).
Proof.
  intros H.
  set (ms := [CallAdd "a"; CallAdd "b"; RunTicks; RunPolls; NextReceives;
              NextStores; RunDeletes; DoneLoads "a"; RunRecvDone "a";
              RunPolls; NextReceives; NextStores]).
  destruct (mrun 1 ms (fine_start (mkBucket 0%N []))) as [f|] eqn:Hrun;
    [|vm_compute in Hrun; discriminate Hrun].
  assert (Hnf : no_ForceNext ms = true) by reflexivity.
  assert (Hex : exclusive_Done 1 ms (fine_start (mkBucket 0%N [])) = true)
    by (vm_compute; reflexivity).
  specialize (H 1 (mkBucket 0%N []) ms f ltac:(lia) Hnf Hex Hrun).
  vm_compute in Hrun. injection Hrun as <-.
  vm_compute in H. apply H. reflexivity.
Qed.

(** C1, amended. When [Run] is started with [maxActive = k] (a count, so
    [0 ≤ k], and a Go [int]) on any persisted backlog, [ForceNext] is
    never called and the calls of [Done] for one hash do not overlap,
    then in every state that the goroutines reach the counter
    [numActive] is at most [k], and [activeHashes] holds at most as many
    hashes as the counter says plus the calls of [Done] that have
    signalled [Run] and not yet deleted their hash: at most [k] whenever
    no call of [Done] stands between its signal and its delete.  The
    loop pops nothing while the counter is at [k] or above, a pop raises
    the counter by one, and the signal of a call of [Done], which is
    sent for an active hash only, lowers it by one. *)
Theorem C1_active_bound_without_force
    (k : Z) (b : Bucket) (ms : list micro) (f : Fine) :
  0 ≤ k < 2 ^ 63 →
  no_ForceNext ms = true →
  exclusive_Done k ms (fine_start b) = true →
  mrun k ms (fine_start b) = Some f →
  numActive (shared f) ≤ k
  ∧ Z.of_nat (size (activeHashes (shared f)))
      ≤ numActive (shared f) + Z.of_nat (length (deleting f))
  ∧ Z.of_nat (size (activeHashes (shared f))) ≤ k + Z.of_nat (length (deleting f))
  ∧ (deleting f = [] → Z.of_nat (size (activeHashes (shared f))) ≤ k)
  ∧ (∀ f', mstep k RunPolls f = Some f' →
       (∃ buf, pc f' = PollSend buf
               ∧ Get_FirstKey (queued (shared f)) = Some buf
               ∧ numActive (shared f) < k
               ∧ numActive (shared f') = numActive (shared f) + 1)
       ∨ (pc f' = AtSelect ∧ shared f' = shared f
          ∧ (k ≤ numActive (shared f) ∨ Get_FirstKey (queued (shared f)) = None)))
  ∧ (∀ h f', mstep k (RunRecvDone h) f = Some f' →
       h ∈ activeHashes (shared f)
       ∧ numActive (shared f') = numActive (shared f) - 1).
Proof.
  intros Hk Hnf Hex Hrun.
  destruct (no_ForceNext_received k ms (fine_start b) f eq_refl Hnf Hrun) as [Hrf _].
  destruct (mrun_ok k 0 ms (fine_start b) f) as [Hok _];
    [lia|lia|rewrite Hrf; lia| |done|done|].
  { rewrite Z.add_0_r. apply fine_start_ok. lia. }
  rewrite Hrf, !Z.add_0_r in Hok.
  destruct (fine_ok_size k f Hok) as [Hsz Hc].
  pose proof Hok as (_ & _ & _ & Hn0 & Hn).
  split; [lia|]. split; [lia|]. split; [lia|]. split; [|split].
  - intros Hd. rewrite Hd in Hsz. cbn [length] in Hsz. lia.
  - intros f'. cbn [mstep]. destruct (pc f); try done.
    destruct (Z.ltb_spec (numActive (shared f)) k).
    + destruct (Get_FirstKey (queued (shared f))) as [buf|] eqn:Hget;
        intros [= <-]; fine_norm.
      * left. exists buf. rewrite int_wrap_id by lia. done.
      * right. auto.
    + intros [= <-]. fine_norm. right. auto.
  - intros h f'. cbn [mstep]. destruct (pc f); try done.
    destruct (take_out h (signalling f)) as [rest|] eqn:Hto; [|done].
    intros [= <-]. fine_norm.
    apply take_out_elem in Hto as [Hh _].
    destruct (fine_ok_signalling k f h Hok Hh) as [Hin H1].
    split; [done|]. rewrite int_wrap_id by lia.
    destruct (Z.ltb_spec (numActive (shared f) - 1) 0); lia.
Qed.

Lemma C1_witness :
  ∃ f, mrun 1 [CallAdd "a"; CallAdd "b"; RunTicks; RunPolls; NextReceives;
               NextStores; RunDeletes; DoneLoads "a"; RunRecvDone "a";
               RunPolls; NextReceives; NextStores; DoneDeletes "a"]
            (fine_start (mkBucket 0%N [])) = Some f
       ∧ Z.of_nat (size (activeHashes (shared f))) ≤ 1.
Proof.
  eexists. split; [vm_compute; reflexivity|].
  eapply (C1_active_bound_without_force 1 (mkBucket 0%N [])
            [CallAdd "a"; CallAdd "b"; RunTicks; RunPolls; NextReceives;
             NextStores; RunDeletes; DoneLoads "a"; RunRecvDone "a";
             RunPolls; NextReceives; NextStores; DoneDeletes "a"]).
  - lia.
  - reflexivity.
  - vm_compute. reflexivity.
  - vm_compute. reflexivity.
  - reflexivity.
Defined.



(** ** The distance between the counter and the active set *)

(** X9. In every state that the goroutines reach while the calls of
    [Done] for one hash do not overlap, the counter of [Run] together
    with the calls of [Done] between signal and delete is at least the
    size of [activeHashes] together with the hashes on their way into it.
    The difference is lowered by no step of any goroutine, and it grows
    by one whenever [Next] stores a hash that is already active: the slot
    counted for such a hash is not given back. *)
Theorem slack_never_shrinks
    (k : Z) (b : Bucket) (ms : list micro) (m : micro) (f f' : Fine) :
  0 ≤ k →
  k + received_forces (ms ++ [m]) < 2 ^ 63 →
  exclusive_Done k (ms ++ [m]) (fine_start b) = true →
  mrun k ms (fine_start b) = Some f →
  mstep k m f = Some f' →
  0 ≤ fslack f
  ∧ fslack f ≤ fslack f'
  ∧ (∀ o h, m = NextStores → taking f = Some (o, h) →
       h ∈ activeHashes (shared f) → fslack f' = fslack f + 1).
Proof.
  intros Hk HB Hex Hrun Hstep.
  rewrite received_forces_app, received_forces_cons in HB.
  rewrite (exclusive_Done_app k ms [m] _ f Hrun) in Hex.
  apply andb_prop in Hex as [Hex Hexm].
  pose proof (received_forces_nonneg ms).
  assert (Hf0 : received_forces [] = 0) by done. rewrite Hf0 in HB.
  destruct (mrun_ok k 0 ms (fine_start b) f) as [Hok _];
    [lia|lia|destruct (is_RunRecvForce m); lia| |done|done|].
  { rewrite Z.add_0_r. by apply fine_start_ok. }
  rewrite Z.add_0_r in Hok.
  destruct (mstep_ok k (k + received_forces ms) m f f') as [_ Hsl];
    [lia|lia|destruct (is_RunRecvForce m); lia|done| |done|].
  { intros h ->. cbn [exclusive_Done] in Hexm.
    apply andb_prop in Hexm as [Hm _]. by apply bool_decide_eq_true in Hm. }
  pose proof Hok as (_ & _ & H0 & _).
  split; [done|]. split; [done|].
  intros o h -> Ht Hin. cbn [mstep] in Hstep. rewrite Ht in Hstep.
  injection Hstep as <-. unfold fslack, carrying. fine_norm. rewrite Ht.
  replace ({[h]} ∪ activeHashes (shared f)) with (activeHashes (shared f))
    by set_solver.
  destruct (pc f); lia.
Qed.

Lemma slack_never_shrinks_witness :
  ∃ f f', mrun 1 [CallAdd "a"; CallAdd "a"; RunTicks; RunPolls; NextReceives;
                  NextStores; RunDeletes; CallForceNext "a"; RunRecvForce "a";
                  RunRemoves; NextReceives]
               (fine_start (mkBucket 0%N [])) = Some f
          ∧ mstep 1 NextStores f = Some f'
          ∧ fslack f' = fslack f + 1.
Proof.
  eexists _, _. split; [vm_compute; reflexivity|]. split; [vm_compute; reflexivity|].
  eapply (slack_never_shrinks 1 (mkBucket 0%N [])
            [CallAdd "a"; CallAdd "a"; RunTicks; RunPolls; NextReceives;
             NextStores; RunDeletes; CallForceNext "a"; RunRecvForce "a";
             RunRemoves; NextReceives] NextStores).
  - lia.
  - vm_compute. reflexivity.
  - vm_compute. reflexivity.
  - vm_compute. reflexivity.
  - vm_compute. reflexivity.
  - reflexivity.
  - vm_compute. reflexivity.
  - apply (bool_decide_unpack _). vm_compute. exact I.
Defined.

(** ** Removing a hash from the backlog *)

Lemma values_Put_AutoIncrement v b x :
  x ∈ values (Put_AutoIncrement v b) → x = v ∨ x ∈ values b.
Proof.
  unfold values, Put_AutoIncrement, NextSequence, bucket_Put. cbn [entries].
  intros ([k' v'] & -> & Hin)%list_elem_of_fmap. cbn [snd].
  apply DatabaseAPIFacts.elem_of_insert_sorted in Hin as [[= _ ->]|Hin]; [by left|].
  right. apply list_elem_of_fmap. by exists (k', v').
Qed.

Lemma values_remove_matching_elem hash b x :
  x ∈ values (remove_matching hash b) → x ∈ values b ∧ x ≠ hash.
Proof.
  rewrite QueueMoreFacts.values_remove_matching.
  intros [? ?]%list_elem_of_filter. done.
Qed.

Lemma Get_FirstKey_elem b v : Get_FirstKey b = Some v → v ∈ values b.
Proof.
  unfold Get_FirstKey, cursor_First, values.
  destruct (entries b) as [|[k v'] l]; cbn; [done|].
  intros [= <-]. by left.
Qed.

(** A step that is not a call for [id] delivers no [id] and puts no [id]
    into the backlog or into the hands of [Run] and [Next]. *)
Lemma mstep_holds_none k id m f f' :
  (id ∉ values (queued (shared f))) → holds_none id f →
  is_call_for id m = false →
  mstep k m f = Some f' →
  (id ∉ values (queued (shared f'))) ∧ holds_none id f'
  ∧ ∃ d, delivered (shared f') = delivered (shared f) ++ d ∧ (id ∉ snd <$> d).
Proof.
  intros Hv (Hp1 & Hp2 & Hp3 & Ht & Hf) Hm Hstep. unfold holds_none.
  assert (Hnil : ∀ l : list (origin * string),
            ∃ d : list (origin * string), l = l ++ d ∧ (id ∉ snd <$> d)).
  { intros l. exists []. rewrite app_nil_r. split; [done|]. cbn. apply not_elem_of_nil. }
  destruct m as [h|h|h|h|h|h| | | | | | |h]; cbn [mstep is_call_for] in *.
  - injection Hstep as <-. fine_norm.
    apply bool_decide_eq_false in Hm.
    split; [|split; [done|apply Hnil]].
    intros [->|?]%values_Put_AutoIncrement; done.
  - injection Hstep as <-. fine_norm.
    split; [|split; [done|apply Hnil]].
    by intros [? _]%values_remove_matching_elem.
  - injection Hstep as <-. fine_norm.
    apply bool_decide_eq_false in Hm.
    split; [done|]. split; [|apply Hnil].
    repeat split; try done.
    intros [?| ->%list_elem_of_singleton]%elem_of_app; done.
  - case_decide; injection Hstep as <-; fine_norm; (split; [done|split; [done|apply Hnil]]).
  - destruct (pc f) eqn:Hpc; try done.
    destruct (take_out h (signalling f)); [|done].
    injection Hstep as <-. fine_norm.
    split; [done|]. split; [done|apply Hnil].
  - destruct (pc f) eqn:Hpc; try done.
    destruct (take_out h (forcing f)) as [rest|] eqn:Hto; [|done].
    injection Hstep as <-. fine_norm.
    apply take_out_elem in Hto as [Hh Hsub].
    split; [done|]. split; [|apply Hnil].
    repeat split; try done.
    + intros [= ->]. done.
    + intros Hid. apply Hf. by apply Hsub.
  - destruct (pc f) eqn:Hpc; try done.
    injection Hstep as <-. fine_norm. split; [done|]. split; [done|apply Hnil].
  - destruct (pc f) as [|h| | | |] eqn:Hpc; try done.
    injection Hstep as <-. fine_norm.
    split; [by intros [? _]%values_remove_matching_elem|].
    split; [|apply Hnil]. repeat split; try done.
    intros [= ->]. done.
  - destruct (pc f) eqn:Hpc; try done.
    destruct (_ <? _).
    + destruct (Get_FirstKey (queued (shared f))) as [buf|] eqn:Hget;
        injection Hstep as <-; fine_norm;
        (split; [done|]); (split; [|apply Hnil]); [|done].
      repeat split; try done.
      intros [= ->]. apply Hv. by apply Get_FirstKey_elem.
    + injection Hstep as <-. fine_norm. split; [done|]. split; [done|apply Hnil].
  - destruct (taking f) eqn:Htk; try done.
    destruct (pc f) as [| |h| |buf|] eqn:Hpc; try done;
      injection Hstep as <-; fine_norm;
      (split; [done|]); (split; [|apply Hnil]); repeat split; try done.
    + intros o [= _ ->]. done.
    + intros o [= _ ->]. done.
  - destruct (taking f) as [[o h]|] eqn:Htk; [|done].
    injection Hstep as <-. fine_norm.
    split; [done|]. split; [done|].
    exists [(o, h)]. split; [done|]. cbn.
    intros ->%list_elem_of_singleton. by apply (Ht o).
  - destruct (pc f) eqn:Hpc; try done.
    injection Hstep as <-. fine_norm.
    split; [|split; [done|apply Hnil]].
    intros Hin. apply Hv.
    eapply elem_of_sublist; [exact Hin|]. apply values_Delete_FirstKey_sublist.
  - destruct (take_out h (deleting f)); [|done].
    injection Hstep as <-. fine_norm.
    split; [done|]. split; [done|apply Hnil].
Qed.

Lemma mrun_holds_none k id ms f f' :
  (id ∉ values (queued (shared f))) → holds_none id f →
  forallb (λ m, negb (is_call_for id m)) ms = true →
  mrun k ms f = Some f' →
  ∃ d, delivered (shared f') = delivered (shared f) ++ d ∧ (id ∉ snd <$> d).
Proof.
  revert f. induction ms as [|m ms IH]; intros f Hv Hh Hms Hrun.
  - injection Hrun as <-. exists []. rewrite app_nil_r. split; [done|].
    cbn. apply not_elem_of_nil.
  - cbn [mrun forallb] in Hrun, Hms. apply andb_prop in Hms as [Hm Hms].
    apply negb_true_iff in Hm.
    destruct (mstep k m f) as [f0|] eqn:Hstep; [|done].
    destruct (mstep_holds_none k id m f f0 Hv Hh Hm Hstep)
      as (Hv0 & Hh0 & d0 & Hd0 & Hn0).
    destruct (IH f0 Hv0 Hh0 Hms Hrun) as (d & Hd & Hn).
    exists (d0 ++ d). rewrite Hd, Hd0, app_assoc. split; [done|].
    rewrite fmap_app. intros [?|?]%elem_of_app; done.
Qed.

(** X8. [Remove id] is one transaction: it deletes the backlog entries of
    [id] and nothing else, the other entries keep their order, the
    counter, the active set and the deliveries are untouched.  If at that
    moment neither [Run] nor [Next] holds [id] and no [ForceNext id] is
    waiting, then [id] is not returned by [Next] again before a later
    [Add id] or [ForceNext id], whatever the goroutines do.  If [Run] has
    already read [id] as the first entry and stands before its send,
    [id] is still delivered after [Remove] has returned, and the entry
    that [Run] then deletes as the first one is another one. *)
Theorem Remove_prevents_delivery
    (k : Z) (id : string) (f : Fine) (ms : list micro) :
  let f1 := mkFine (Remove id (shared f)) (pc f) (taking f)
                   (signalling f) (deleting f) (forcing f) in
  mstep k (CallRemove id) f = Some f1
  ∧ numActive (shared f1) = numActive (shared f)
  ∧ activeHashes (shared f1) = activeHashes (shared f)
  ∧ delivered (shared f1) = delivered (shared f)
  ∧ values (queued (shared f1)) = filter (λ h, h ≠ id) (values (queued (shared f)))
  ∧ (holds_none id f →
     forallb (λ m, negb (is_call_for id m)) ms = true →
     ∀ f', mrun k ms f1 = Some f' →
       ∃ later, delivered (shared f') = delivered (shared f) ++ later
                ∧ (id ∉ snd <$> later))
  ∧ (pc f = PollSend id → taking f = None →
     ∃ f2, mrun k [NextReceives; NextStores; RunDeletes] f1 = Some f2
           ∧ delivered (shared f2) = delivered (shared f) ++ [(Polled, id)]
           ∧ queued (shared f2)
             = Delete_FirstKey (remove_matching id (queued (shared f)))).
Proof.
  intros f1. split; [done|]. split; [done|]. split; [done|]. split; [done|].
  split; [apply QueueMoreFacts.values_remove_matching|]. split.
  - intros Hh Hms f' Hrun.
    apply (mrun_holds_none k id ms f1 f'); [|done|done|done].
    unfold f1. fine_norm. by intros [_ ?]%values_remove_matching_elem.
  - intros Hpc Ht. unfold f1.
    cbn [mrun mstep taking pc shared]. rewrite Ht, Hpc.
    cbn [mrun mstep taking pc shared]. eexists. split; [done|].
    fine_norm. done.
Qed.

Lemma Remove_prevents_delivery_witness :
  let f := mkFine (mkState (mkBucket 2 [(itob 1, "a"); (itob 2, "b")]) 1 ∅ [])
                  (PollSend "a") None [] [] [] in
  mrun 1 [CallAdd "a"; CallAdd "b"; RunTicks; RunPolls]
       (fine_start (mkBucket 0%N [])) = Some f
  ∧ ∃ f2, mrun 1 [CallRemove "a"; NextReceives; NextStores; RunDeletes] f = Some f2
          ∧ delivered (shared f2) = [(Polled, "a")]
          ∧ values (queued (shared f2)) = [].
Proof.
  intros f. split; [vm_compute; reflexivity|].
  destruct (Remove_prevents_delivery 1 "a" f [])
    as (Hstep & _ & _ & _ & _ & _ & H).
  destruct H as (f2 & Hrun & Hd & Hq); [reflexivity|reflexivity|].
  exists f2. split; [|split].
  - cbn [mrun]. rewrite Hstep. exact Hrun.
  - rewrite Hd. reflexivity.
  - rewrite Hq. vm_compute. reflexivity.
Defined.

(** ** Whole operations as sequences of steps *)

Lemma poll_steps_refines k s sg dl fr :
  mrun k (poll_steps k s) (mkFine s AtPoll None sg dl fr)
  = Some (mkFine (Run_poll k s) AtSelect None sg dl fr).
Proof.
  unfold poll_steps, Run_poll.
  destruct (numActive s <? k) eqn:Hlt.
  - destruct (Get_FirstKey (queued s)) as [buf|] eqn:Hget.
    + cbn [mrun mstep pc shared taking signalling deleting forcing].
      rewrite Hlt, Hget.
      cbn [mrun mstep pc shared taking signalling deleting forcing]. done.
    + cbn [mrun mstep pc shared taking signalling deleting forcing].
      by rewrite Hlt, Hget.
  - cbn [mrun mstep pc shared taking signalling deleting forcing].
    by rewrite Hlt.
Qed.

(** Every whole operation of [Queue.step] is a sequence of steps of the
    goroutines, from a state between operations to a state between
    operations. *)
Lemma micro_of_op_refines k o s :
  mrun k (micro_of_op k o s) (quiet s) = Some (quiet (step k o s)).
Proof.
  assert (Hd : ∀ h, Done h s = activeHashes_Delete h (Run_select CaseDone s)
                    ∨ h ∉ activeHashes s).
  { intros h. destruct (decide (h ∈ activeHashes s)); [left|by right].
    unfold Done. by rewrite decide_True. }
  destruct o as [h|h|h|h delete_first|]; cbn [micro_of_op step].
  - done.
  - done.
  - rewrite mrun_app.
    repeat first
      [ rewrite decide_True by done
      | progress cbn [mrun mstep quiet pc shared taking signalling deleting forcing
                      app take_out mbind option_bind] ].
    apply poll_steps_refines.
  - case_decide as Hin.
    + destruct (Hd h) as [HD|?]; [|done].
      destruct delete_first.
      * rewrite mrun_app.
        repeat first
          [ rewrite decide_True by done
          | progress cbn [mrun mstep quiet pc shared taking signalling deleting
                          forcing app take_out mbind option_bind] ].
        rewrite <- HD. apply poll_steps_refines.
      * rewrite mrun_app.
        repeat first
          [ rewrite decide_True by done
          | progress cbn [mrun mstep quiet pc shared taking signalling deleting
                          forcing app take_out mbind option_bind] ].
        rewrite mrun_app, poll_steps_refines.
        repeat first
          [ rewrite decide_True by done
          | progress cbn [mrun mstep quiet pc shared taking signalling deleting
                          forcing app take_out mbind option_bind] ].
        done.
    + cbn [mrun mstep quiet pc shared taking signalling deleting forcing].
      rewrite decide_False by done. by rewrite Done_not_member.
  - cbn [mrun mstep quiet pc shared taking signalling deleting forcing].
    apply poll_steps_refines.
Qed.

(** The states that sequences of whole operations reach are states that
    the goroutines reach. *)
Lemma run_refines k ops s :
  ∃ ms, mrun k ms (quiet s) = Some (quiet (run k ops s)).
Proof.
  revert s. induction ops as [|o ops IH]; intros s.
  - by exists [].
  - destruct (IH (step k o s)) as [ms Hms].
    exists (micro_of_op k o s ++ ms).
    rewrite mrun_app, micro_of_op_refines. exact Hms.
Qed.

End QueueFineFacts.
